(** * PO_TesserXtract: OCR field extraction, verified against its specification

    A shallow embedding of the two Flask applications of the repository
    ([Code1.py] and [Code2.py]): the image preprocessing, the rule-based field
    extraction, the upload handler and the aggregation of the per-file
    results.

    External libraries are modelled as follows.
    - The decoder behind [cv2.imread], [pytesseract.image_to_string] and
      [uuid.uuid4] are fields of an environment record that the
      definitions take as an argument: the first may return [None], the
      second may raise.
    - [cv2.cvtColor] and [cv2.threshold] are written out on pixel grids.
    - [re] is modelled by a backtracking matcher for the fragment of the
      pattern language that the rule table uses.
    - [multiprocessing.Pool]: the workers share no state, so the list of
      [apply_async(...).get()] calls is the list of the results in order,
      and the first exception met in that order propagates.

    Text is a Rocq [string]: characters are code points below 256, of which
    those below 128 carry the ASCII classes and the others are plain
    symbols. *)

From Stdlib Require Import ZArith NArith Ascii String DecimalString List Bool Lia.
From stdpp Require Import base option list gmap strings fin_maps.

#[local] Set Warnings "-clear-no-such-hyp".

Local Open Scope string_scope.
Local Open Scope list_scope.
Local Open Scope nat_scope.

(** ** Exceptions and results *)

(** The exceptions that the modelled code can raise. *)
Inductive exn : Type :=
| cv2_error        (* cv2.cvtColor on None *)
| TypeError        (* re.sub / image_to_string on None *)
| AttributeError   (* None.strip() *)
| IndexError       (* match.group(1) on a pattern without groups *)
| re_error         (* a pattern that does not compile *)
| TesseractError   (* the recognition engine failed *)
| ValueError.      (* mp.Pool(processes=0) *)

Inductive result (A : Type) : Type :=
| Ok (a : A)
| Raise (e : exn).
Arguments Ok {A} a.
Arguments Raise {A} e.

#[global] Instance result_ret : MRet result := fun A a => Ok a.
#[global] Instance result_bind : MBind result := fun A B f c =>
  match c with
  | Ok a => f a
  | Raise e => Raise e
  end.

Definition is_Ok {A} (c : result A) : Prop := ∃ a, c = Ok a.

(** [[f(x) for x in l]] where [f] may raise: the first exception wins. *)
Fixpoint mapR {A B} (f : A → result B) (l : list A) : result (list B) :=
  match l with
  | [] => Ok []
  | x :: l' => y ← f x; ys ← mapR f l'; Ok (y :: ys)
  end.

(** ** Characters *)

Module Char.

Definition code (c : ascii) : N := N_of_ascii c.

Definition between (lo hi : N) (c : ascii) : bool :=
  ((lo <=? code c) && (code c <=? hi))%N.

(** [str.isspace] and the class [\s] on ASCII: TAB..CR, FS..US, SPACE. *)
Definition isspace (c : ascii) : bool := between 9 13 c || between 28 32 c.

Definition isdigit (c : ascii) : bool := between 48 57 c.
Definition isupper (c : ascii) : bool := between 65 90 c.
Definition islower (c : ascii) : bool := between 97 122 c.
Definition isalpha (c : ascii) : bool := isupper c || islower c.

(** The class [\w]. *)
Definition isword (c : ascii) : bool :=
  isalpha c || isdigit c || (code c =? 95)%N.

Definition lower (c : ascii) : ascii :=
  if isupper c then ascii_of_N (code c + 32) else c.
Definition upper (c : ascii) : ascii :=
  if islower c then ascii_of_N (code c - 32) else c.
Definition swapcase (c : ascii) : ascii :=
  if isupper c then lower c else upper c.

Definition eqb (a b : ascii) : bool := (code a =? code b)%N.

End Char.

(** ** Strings: the [str] methods that the code uses *)

Module Str.

Definition chars (s : string) : list ascii := list_ascii_of_string s.
Definition of_chars (l : list ascii) : string := string_of_list_ascii l.

(** [s.lower()] *)
Definition lower (s : string) : string := of_chars (map Char.lower (chars s)).

Fixpoint lstrip_chars (l : list ascii) : list ascii :=
  match l with
  | c :: l' => if Char.isspace c then lstrip_chars l' else l
  | [] => []
  end.

Fixpoint rstrip_chars (l : list ascii) : list ascii :=
  match l with
  | [] => []
  | c :: l' =>
      match rstrip_chars l' with
      | [] => if Char.isspace c then [] else [c]
      | r => c :: r
      end
  end.

Definition strip_chars (l : list ascii) : list ascii :=
  rstrip_chars (lstrip_chars l).

(** [s.strip()] *)
Definition strip (s : string) : string := of_chars (strip_chars (chars s)).

(** [c in s] for a one-character [c]. *)
Definition contains (c : ascii) (s : string) : bool :=
  existsb (Char.eqb c) (chars s).

(** The part of [l] after its last [c]: [l] itself when [c] does not
    occur. *)
Fixpoint after_last (c : ascii) (l : list ascii) : list ascii :=
  match l with
  | [] => []
  | x :: l' =>
      if existsb (Char.eqb c) l' then after_last c l'
      else if Char.eqb c x then l' else l
  end.

(** [s.rsplit(c, 1)[1]], defined when [c in s]. *)
Definition rsplit1_snd (c : ascii) (s : string) : string :=
  of_chars (after_last c (chars s)).

(** [s.startswith(c)] *)
Definition startswith (c : ascii) (s : string) : bool :=
  match chars s with
  | x :: _ => Char.eqb c x
  | [] => false
  end.

(** [s.endswith(c)] *)
Definition endswith (c : ascii) (s : string) : bool :=
  match rev (chars s) with
  | x :: _ => Char.eqb c x
  | [] => false
  end.

(** *** Whitespace-normal texts *)

(** No two whitespace characters in a row; [prev] says that the character
    before the list is whitespace. *)
Fixpoint single_spaced (prev : bool) (l : list ascii) : bool :=
  match l with
  | [] => true
  | c :: l' =>
      if Char.isspace c then negb prev && single_spaced true l'
      else single_spaced false l'
  end.

(** The last character, if any, is not whitespace. *)
Fixpoint ends_well (l : list ascii) : bool :=
  match l with
  | [] => true
  | [c] => negb (Char.isspace c)
  | _ :: l' => ends_well l'
  end.

Definition plain_space (c : ascii) : bool :=
  implb (Char.isspace c) (Char.eqb c " ").

(** The text has no whitespace at its ends, and its only whitespace is
    single spaces. *)
Definition normal (s : string) : bool :=
  single_spaced true (chars s) && ends_well (chars s)
  && forallb plain_space (chars s).

(** The characters of the text that are not whitespace. *)
Definition ink (s : string) : list ascii :=
  List.filter (λ c, negb (Char.isspace c)) (chars s).

End Str.

(** ** Regular expressions: the fragment of [re] that the rules use *)

Module Re.

(** Character categories: [\s \S \d \D \w \W]. *)
Inductive category : Type :=
| CatSpace | CatNotSpace | CatDigit | CatNotDigit | CatWord | CatNotWord.

(** Members of a bracketed set [[...]]. *)
Inductive set_item : Type :=
| SChar (c : ascii)
| SRange (lo hi : ascii)
| SCat (k : category).

(** Parsed patterns.  Repetitions are greedy; [Group n r] is the [n]-th
    capturing group, numbered by its opening parenthesis. *)
Inductive regex : Type :=
| Empty
| Literal (c : ascii)
| AnyChar
| Category (k : category)
| CharSet (negate : bool) (items : list set_item)
| Seq (r1 r2 : regex)
| Alt (r1 r2 : regex)
| Star (r : regex)
| Plus (r : regex)
| Opt (r : regex)
| Group (n : nat) (r : regex).

(** *** Parsing ([re.compile]) *)

Definition category_of (c : ascii) : option category :=
  if Char.eqb c "s" then Some CatSpace
  else if Char.eqb c "S" then Some CatNotSpace
  else if Char.eqb c "d" then Some CatDigit
  else if Char.eqb c "D" then Some CatNotDigit
  else if Char.eqb c "w" then Some CatWord
  else if Char.eqb c "W" then Some CatNotWord
  else None.

(** [\n \t \r \f \v], and escaped punctuation, which stands for itself.
    Other escaped letters and digits ([\b], [\A], [\1], ...) are outside
    the fragment. *)
Definition escaped_char (c : ascii) : option ascii :=
  if Char.eqb c "n" then Some (ascii_of_N 10)
  else if Char.eqb c "t" then Some (ascii_of_N 9)
  else if Char.eqb c "r" then Some (ascii_of_N 13)
  else if Char.eqb c "f" then Some (ascii_of_N 12)
  else if Char.eqb c "v" then Some (ascii_of_N 11)
  else if Char.isword c then None
  else Some c.

(** The items of a set, up to and including the closing bracket. *)
Fixpoint parse_set (fuel : nat) (s : list ascii)
  : option (list set_item * list ascii) :=
  match fuel with
  | O => None
  | S fuel' =>
      match s with
      | [] => None
      | "]"%char :: s' => Some ([], s')
      | "\"%char :: c :: s' =>
          item ← match category_of c with
                 | Some k => Some (SCat k)
                 | None => SChar <$> escaped_char c
                 end;
          '(items, s'') ← parse_set fuel' s';
          Some (item :: items, s'')
      | "\"%char :: [] => None
      | lo :: "-"%char :: hi :: s' =>
          if Char.eqb hi "]" then
            (* a trailing dash is a literal dash *)
            '(items, s'') ← parse_set fuel' ("-"%char :: hi :: s');
            Some (SChar lo :: items, s'')
          else if Char.eqb hi "\" then None
          else if (Char.code hi <? Char.code lo)%N then None
          else
            '(items, s'') ← parse_set fuel' s';
            Some (SRange lo hi :: items, s'')
      | c :: s' =>
          '(items, s'') ← parse_set fuel' s';
          Some (SChar c :: items, s'')
      end
  end.

Definition is_quantifier (c : ascii) : bool :=
  Char.eqb c "*" || Char.eqb c "+" || Char.eqb c "?" || Char.eqb c "{".

(** A quantifier after an atom.  Lazy and possessive forms and counted
    repetitions are outside the fragment. *)
Definition parse_quantifier (a : regex) (s : list ascii)
  : option (regex * list ascii) :=
  match s with
  | q :: s' =>
      if is_quantifier q then
        match s' with
        | q' :: _ => if is_quantifier q' then None else Some tt
        | [] => Some tt
        end ≫= λ _,
        if Char.eqb q "*" then Some (Star a, s')
        else if Char.eqb q "+" then Some (Plus a, s')
        else if Char.eqb q "?" then Some (Opt a, s')
        else None
      else Some (a, s)
  | [] => Some (a, s)
  end.

(** Recursive descent: alternation, sequence, atom.  The third component
    is the number of the next group to open. *)
Fixpoint parse_alt (fuel : nat) (s : list ascii) (g : nat)
  : option (regex * list ascii * nat) :=
  match fuel with
  | O => None
  | S fuel' =>
      '(r1, s1, g1) ← parse_seq fuel' s g;
      match s1 with
      | "|"%char :: s2 =>
          '(r2, s3, g2) ← parse_alt fuel' s2 g1;
          Some (Alt r1 r2, s3, g2)
      | _ => Some (r1, s1, g1)
      end
  end
with parse_seq (fuel : nat) (s : list ascii) (g : nat)
  : option (regex * list ascii * nat) :=
  match fuel with
  | O => None
  | S fuel' =>
      match s with
      | [] => Some (Empty, s, g)
      | c :: _ =>
          if Char.eqb c ")" || Char.eqb c "|" then Some (Empty, s, g)
          else
            '(a, s1, g1) ← parse_atom fuel' s g;
            '(q, s2) ← parse_quantifier a s1;
            '(r, s3, g2) ← parse_seq fuel' s2 g1;
            Some (match r with Empty => q | _ => Seq q r end, s3, g2)
      end
  end
with parse_atom (fuel : nat) (s : list ascii) (g : nat)
  : option (regex * list ascii * nat) :=
  match fuel with
  | O => None
  | S fuel' =>
      match s with
      | [] => None
      | "("%char :: s' =>
          match s' with
          | "?"%char :: _ => None
          | _ =>
              '(r, s1, g1) ← parse_alt fuel' s' (S g);
              match s1 with
              | ")"%char :: s2 => Some (Group g r, s2, g1)
              | _ => None
              end
          end
      | "["%char :: "^"%char :: s' =>
          '(items, s1) ← parse_set fuel' s';
          match items with
          | [] => None
          | _ => Some (CharSet true items, s1, g)
          end
      | "["%char :: s' =>
          '(items, s1) ← parse_set fuel' s';
          match items with
          | [] => None
          | _ => Some (CharSet false items, s1, g)
          end
      | "\"%char :: c :: s' =>
          match category_of c with
          | Some k => Some (Category k, s', g)
          | None => c' ← escaped_char c; Some (Literal c', s', g)
          end
      | "."%char :: s' => Some (AnyChar, s', g)
      | c :: s' =>
          if is_quantifier c || Char.eqb c "^" || Char.eqb c "$"
             || Char.eqb c "\" || Char.eqb c ")" || Char.eqb c "|"
          then None
          else Some (Literal c, s', g)
      end
  end.

(** [re.compile(pattern)]: [None] stands for [re.error] (or a pattern
    outside the fragment).  The second component is [Pattern.groups]. *)
Definition compile (pattern : string) : option (regex * nat) :=
  let s := Str.chars pattern in
  '(r, rest, g) ← parse_alt (4 * length s + 4) s 1;
  match rest with
  | [] => Some (r, g - 1)
  | _ => None
  end.

(** *** Matching *)

Definition in_category (k : category) (c : ascii) : bool :=
  match k with
  | CatSpace => Char.isspace c
  | CatNotSpace => negb (Char.isspace c)
  | CatDigit => Char.isdigit c
  | CatNotDigit => negb (Char.isdigit c)
  | CatWord => Char.isword c
  | CatNotWord => negb (Char.isword c)
  end.

Definition in_range (lo hi c : ascii) : bool :=
  Char.between (Char.code lo) (Char.code hi) c.

(** Membership of a character in a set item.  With [IGNORECASE] (the flag
    [ic]) the item is matched up to case: the engine lowers the character
    and the letters of the set. *)
Definition in_item (ic : bool) (c : ascii) (it : set_item) : bool :=
  match it with
  | SChar x =>
      if ic then Char.eqb (Char.lower x) (Char.lower c) else Char.eqb x c
  | SRange lo hi =>
      if ic then in_range lo hi (Char.lower c) || in_range lo hi (Char.upper c)
      else in_range lo hi c
  | SCat k => in_category k c
  end.

(** The remaining input and the captured groups (most recent first). *)
Definition captures : Type := list (nat * list ascii).
Definition answer : Type := list ascii * captures.
Definition cont : Type := list ascii → captures → option answer.

(** One character against a one-character pattern. *)
Definition one (p : ascii → bool) (s : list ascii) (caps : captures)
    (k : cont) : option answer :=
  match s with
  | c :: s' => if p c then k s' caps else None
  | [] => None
  end.

(** Greedy repetition of [step], at most [n] more times; an iteration
    that consumes nothing is not repeated. *)
Fixpoint repeat_max (step : list ascii → captures → cont → option answer)
    (n : nat) (s : list ascii) (caps : captures) (k : cont)
  : option answer :=
  match n with
  | O => k s caps
  | S n' =>
      match step s caps (λ s' caps',
              if (length s' <? length s)%nat
              then repeat_max step n' s' caps' k else None) with
      | Some a => Some a
      | None => k s caps
      end
  end.

(** The backtracking matcher, in continuation-passing style: [run ic r s
    caps k] matches [r] against a prefix of [s] and hands the rest to
    [k]; the alternatives are tried in the order of the pattern. *)
Fixpoint run (ic : bool) (r : regex) (s : list ascii) (caps : captures)
    (k : cont) {struct r} : option answer :=
  match r with
  | Empty => k s caps
  | Literal x =>
      one (λ c, if ic then Char.eqb (Char.lower x) (Char.lower c)
                else Char.eqb x c) s caps k
  | AnyChar => one (λ c, negb (Char.code c =? 10)%N) s caps k
  | Category c => one (in_category c) s caps k
  | CharSet negate items =>
      one (λ c, xorb negate (existsb (in_item ic c) items)) s caps k
  | Seq r1 r2 => run ic r1 s caps (λ s' caps', run ic r2 s' caps' k)
  | Alt r1 r2 =>
      match run ic r1 s caps k with
      | Some a => Some a
      | None => run ic r2 s caps k
      end
  | Star r' => repeat_max (run ic r') (length s) s caps k
  | Plus r' =>
      run ic r' s caps (λ s' caps',
        repeat_max (run ic r') (length s') s' caps' k)
  | Opt r' =>
      match run ic r' s caps k with
      | Some a => Some a
      | None => k s caps
      end
  | Group n r' =>
      run ic r' s caps (λ s' caps',
        k s' ((n, take (length s - length s') s) :: caps'))
  end.

(** A match at the start of [s]. *)
Definition match_here (ic : bool) (r : regex) (s : list ascii)
  : option answer :=
  run ic r s [] (λ s' caps', Some (s', caps')).

(** The match object: the span, the captured groups and the number of
    groups of the pattern. *)
Record Match : Type := mkMatch {
  m_start : nat;
  m_end : nat;
  m_text : list ascii;
  m_caps : captures;
  m_groups : nat
}.

Fixpoint capture (n : nat) (caps : captures) : option (list ascii) :=
  match caps with
  | [] => None
  | (i, v) :: caps' => if (i =? n)%nat then Some v else capture n caps'
  end.

(** [m.group(n)]: [None] for a group that took no part in the match,
    [IndexError] for a group that the pattern does not have. *)
Definition group (m : Match) (n : nat) : result (option string) :=
  if (n =? 0)%nat then
    Ok (Some (Str.of_chars
                (take (m_end m - m_start m) (drop (m_start m) (m_text m)))))
  else if (n <=? m_groups m)%nat then
    Ok (Str.of_chars <$> capture n (m_caps m))
  else Raise IndexError.

(** Scan for the first start position that has a match; [pos] is the
    position of [s] in [text]. *)
Fixpoint search_from (ic : bool) (r : regex) (ng : nat) (text : list ascii)
    (pos : nat) (s : list ascii) : option Match :=
  match match_here ic r s with
  | Some (rest, caps) =>
      Some (mkMatch pos (pos + (length s - length rest)) text caps ng)
  | None =>
      match s with
      | [] => None
      | _ :: s' => search_from ic r ng text (S pos) s'
      end
  end.

(** [re.search(pattern, text, flags)], where [ic] says whether the flags
    are [re.IGNORECASE]. *)
Definition search (pattern : string) (text : string) (ic : bool)
  : result (option Match) :=
  match compile pattern with
  | None => Raise re_error
  | Some (r, ng) =>
      Ok (search_from ic r ng (Str.chars text) 0 (Str.chars text))
  end.

(** *** Well-formed rules *)

(** Group [n] takes part in every match of [r]: it is not under a
    repetition that may run zero times, and it is in every branch of an
    alternation. *)
Fixpoint always_captures (n : nat) (r : regex) : bool :=
  match r with
  | Group m r' => (m =? n)%nat || always_captures n r'
  | Seq r1 r2 => always_captures n r1 || always_captures n r2
  | Alt r1 r2 => always_captures n r1 && always_captures n r2
  | Plus r' => always_captures n r'
  | _ => false
  end.

(** Group [n] is set in [caps]. *)
Definition has (n : nat) (caps : captures) : Prop := is_Some (capture n caps).

(** A step hands its continuation at least the groups it was given. *)
Definition keeps (step : list ascii → captures → cont → option answer)
  : Prop :=
  ∀ s caps k a, step s caps k = Some a →
    ∃ s' caps', k s' caps' = Some a ∧ ∀ n, has n caps → has n caps'.

(** Two outcomes of the matcher that agree on success and on the length
    of the input that is left. *)
Definition agree (o1 o2 : option answer) : Prop :=
  match o1, o2 with
  | Some a1, Some a2 => length a1.1 = length a2.1
  | None, None => True
  | _, _ => False
  end.

(** Two texts that differ in the case of their letters only. *)
Definition same_up_to_case (s1 s2 : list ascii) : Prop :=
  map Char.lower s1 = map Char.lower s2.

Definition cont_agree (k1 k2 : cont) : Prop :=
  ∀ s1 s2 caps1 caps2, same_up_to_case s1 s2 →
    agree (k1 s1 caps1) (k2 s2 caps2).

Definition step_agree
    (step : list ascii → captures → cont → option answer) : Prop :=
  ∀ s1 s2 caps1 caps2 k1 k2, same_up_to_case s1 s2 → cont_agree k1 k2 →
    agree (step s1 caps1 k1) (step s2 caps2 k2).

(** Two matches with the same span. *)
Definition same_span (o1 o2 : option Match) : Prop :=
  match o1, o2 with
  | Some m1, Some m2 => m_start m1 = m_start m2 ∧ m_end m1 = m_end m2
  | None, None => True
  | _, _ => False
  end.

(** A pattern that [process_file] can use: it compiles and its first
    group takes part in every match. *)
Definition usable (pattern : string) : bool :=
  match compile pattern with
  | Some (r, ng) => (1 <=? ng)%nat && always_captures 1 r
  | None => false
  end.

(** The number of capturing groups of a pattern that compiles. *)
Definition groups (pattern : string) : option nat :=
  snd <$> compile pattern.

(** Whether the pattern matches at position [i] of the text. *)
Definition matches_at (ic : bool) (pattern text : string) (i : nat) : bool :=
  match compile pattern with
  | Some (r, _) =>
      bool_decide (is_Some (match_here ic r (drop i (Str.chars text))))
  | None => false
  end.

(** Whether [re.search] finds a match. *)
Definition found (ic : bool) (text : string) (pattern : string) : bool :=
  match search pattern text ic with
  | Ok (Some _) => true
  | _ => false
  end.

End Re.


(** ** Images: [cv2.cvtColor] and [cv2.threshold] *)

Module Cv2.

(** A decoded image, as [cv2.imread] returns it for its default flag
    [IMREAD_COLOR]: rows of pixels with three 8-bit channels in the
    order blue, green, red. *)
Definition pixel : Type := Z * Z * Z.
Definition image : Type := list (list pixel).

(** A single-channel 8-bit image. *)
Definition gray_image : Type := list (list Z).

(** What [pytesseract.image_to_string] is handed. *)
Inductive ndarray : Type :=
| Color (img : image)
| Gray (img : gray_image).

(** [COLOR_BGR2GRAY] on 8-bit data: Y = 0.299 R + 0.587 G + 0.114 B in
    fixed point, 15 fractional bits, rounded. *)
Definition bgr2gray (p : pixel) : Z :=
  let '(b, g, r) := p in
  Z.shiftr (b * 3735 + g * 19235 + r * 9798 + 16384) 15.

(** [cv2.cvtColor(image, cv2.COLOR_BGR2GRAY)]; [None] is what [imread]
    returns for a file that does not decode. *)
Definition cvtColor_BGR2GRAY (img : option image) : result gray_image :=
  match img with
  | None => Raise cv2_error
  | Some img => Ok (map (map bgr2gray) img)
  end.

(** [cv2.threshold(src, thresh, maxval, cv2.THRESH_BINARY_INV)[1]]:
    0 where [src > thresh], [maxval] elsewhere. *)
Definition binary_inv (thresh maxval v : Z) : Z :=
  if (thresh <? v)%Z then 0%Z else maxval.

Definition threshold_BINARY_INV (src : gray_image) (thresh maxval : Z)
  : gray_image :=
  map (map (binary_inv thresh maxval)) src.

(** The complement of an 8-bit image. *)
Definition invert (g : gray_image) : gray_image :=
  map (map (λ v, (255 - v)%Z)) g.

(** A single-channel image read back with [imread]'s default flag: the
    gray value is replicated on the three channels. *)
Definition gray_as_bgr (g : gray_image) : image :=
  map (map (λ v, (v, v, v))) g.

Definition dims {A} (img : list (list A)) : nat * list nat :=
  (length img, map length img).

End Cv2.

(** ** [os.path] and [uuid] *)

Module Os.

Definition slash : ascii := "/".

(** [os.path.basename(p)]: what follows the last slash. *)
Definition basename (p : string) : string := Str.rsplit1_snd "/" p.

(** [os.path.join(a, b)] *)
Definition join (a b : string) : string :=
  if Str.startswith "/" b then b
  else if String.eqb a "" || Str.endswith "/" a then a +:+ b
  else a +:+ "/" +:+ b.

End Os.

Module Uuid.

Definition hex_digit (n : Z) : ascii :=
  nth (Z.to_nat n)
    ["0"; "1"; "2"; "3"; "4"; "5"; "6"; "7";
     "8"; "9"; "a"; "b"; "c"; "d"; "e"; "f"]%char "0"%char.

(** The [k] low hexadecimal digits of [n], most significant first. *)
Fixpoint hex (k : nat) (n : Z) : list ascii :=
  match k with
  | O => []
  | S k' => hex k' (n / 16) ++ [hex_digit (n mod 16)]
  end.

(** [str(u)] for the UUID whose 128-bit value is [n]:
    8-4-4-4-12 hexadecimal digits. *)
Definition str (n : Z) : string :=
  let h := hex 32 n in
  Str.of_chars
    (take 8 h ++ "-"%char :: take 4 (drop 8 h) ++ "-"%char ::
     take 4 (drop 12 h) ++ "-"%char :: take 4 (drop 16 h) ++ "-"%char ::
     drop 20 h).

End Uuid.

(** ** The environment of the application *)

(** What the application reads from outside: the image decoder behind
    [cv2.imread], the recognition engine behind
    [pytesseract.image_to_string], and the UUIDs that [uuid.uuid4()]
    draws, by the number of the draw. *)
Record Env : Type := mkEnv {
  imdecode : string → option Cv2.image;
  image_to_string : Cv2.ndarray → result string;
  uuid4 : nat → Z
}.

(** The state that the handler changes: the files on disk (path to
    bytes), the directories that exist, and the number of UUIDs drawn. *)
Record State : Type := mkState {
  files_on_disk : gmap string string;
  directories : gset string;
  uuids_drawn : nat
}.

(** [cv2.imread(path)]: [None] when the file is missing or does not
    decode. *)
Definition imread (env : Env) (fs : gmap string string) (path : string)
  : option Cv2.image :=
  fs !! path ≫= imdecode env.

(** An uploaded file ([werkzeug.FileStorage]). *)
Record FileStorage : Type := mkFile {
  filename : string;
  content_length : Z;
  stream : string
}.

(** The values that [process_file] returns next to the file name, and that
    the response maps file names to: a string or a dictionary of fields. *)
Inductive value : Type :=
| VStr (s : string)
| VDict (fields : gmap string string).

(** What [jsonify] is given. *)
Inductive response : Type :=
| ErrorJson (error : string)
| FieldsJson (fields : gmap string value).

(** [app.config] *)
Definition UPLOAD_FOLDER : string := "input".
Definition MAX_CONTENT_LENGTH : Z := 5 * 1024 * 1024.
Definition MAX_FILES : nat := 10.

Definition str_nat (n : nat) : string :=
  NilEmpty.string_of_uint (Nat.to_uint n).

(** ** The upload handler, shared by the two applications

    [upload] is the same text in [Code1.py] and [Code2.py]; the two differ
    in the functions [is_image_file] and [process_file] that it calls. *)

Section Handler.

Variable is_image_file : string → bool.
Variable process_file : gmap string string → string → result (string * value).
Variable env : Env.

(** [generate_unique_filename(filename)], given the UUID drawn. *)
Definition generate_unique_filename (u : Z) (filename : string) : string :=
  let ext :=
    if Str.contains "." filename
    then Str.lower (Str.rsplit1_snd "." filename) else "" in
  Uuid.str u +:+ "." +:+ ext.

(** The validation loop: the error message of the first file that fails a
    check, if any. *)
Fixpoint validate (files : list FileStorage) : option string :=
  match files with
  | [] => None
  | file :: rest =>
      if negb (is_image_file (filename file)) then
        Some (filename file +:+ " is not an image file")
      else if (MAX_CONTENT_LENGTH <? content_length file)%Z then
        Some (filename file +:+ " is too large (max size 5MB)")
      else validate rest
  end.

(** [if not os.path.exists(d): os.makedirs(d)] *)
Definition ensure_dir (d : string) (σ : State) : State :=
  if decide (d ∈ directories σ) then σ
  else mkState (files_on_disk σ) ({[d]} ∪ directories σ) (uuids_drawn σ).

(** The saving loop: each file is written under a fresh name; the names
    are returned in the order of the files. *)
Fixpoint save_all (σ : State) (files : list FileStorage)
  : list string * State :=
  match files with
  | [] => ([], σ)
  | file :: rest =>
      let name :=
        generate_unique_filename (uuid4 env (uuids_drawn σ)) (filename file) in
      let σ' :=
        mkState (<[Os.join UPLOAD_FOLDER name := stream file]> (files_on_disk σ))
                (directories σ) (S (uuids_drawn σ)) in
      let '(names, σ'') := save_all σ' rest in
      (name :: names, σ'')
  end.

(** The pool: one worker per file name, the results collected in the
    order of the names. *)
Definition run_pool (fs : gmap string string) (filenames : list string)
  : result (list (string * value)) :=
  if (length filenames =? 0)%nat then Raise ValueError
  else mapR (λ name, process_file fs (Os.join UPLOAD_FOLDER name)) filenames.

(** [for i in range(len(filenames)): response[filenames[i]] =
    fields_list[i][1]] *)
Fixpoint aggregate_loop (filenames : list string)
    (fields_list : list (string * value)) (indices : list nat)
    (response : gmap string value) : result (gmap string value) :=
  match indices with
  | [] => Ok response
  | i :: rest =>
      match filenames !! i, fields_list !! i with
      | Some name, Some r =>
          aggregate_loop filenames fields_list rest (<[name := r.2]> response)
      | _, _ => Raise IndexError
      end
  end.

Definition aggregate (filenames : list string)
    (fields_list : list (string * value)) : result (gmap string value) :=
  aggregate_loop filenames fields_list (seq 0 (length filenames)) ∅.

(** The handler of [POST /upload], on the files sent under [files[]]
    (none when the key is absent).  An exception that leaves the handler
    is the result [Raise]. *)
Definition upload_with (σ : State) (files : list FileStorage)
  : result response * State :=
  match files with
  | [] => (Ok (ErrorJson "No files selected for upload"), σ)
  | _ =>
      if (MAX_FILES <? length files)%nat then
        (Ok (ErrorJson ("Maximum " +:+ str_nat MAX_FILES
                        +:+ " files are allowed at a time")), σ)
      else
        match validate files with
        | Some error => (Ok (ErrorJson error), σ)
        | None =>
            let σ1 := ensure_dir UPLOAD_FOLDER σ in
            let '(filenames, σ2) := save_all σ1 files in
            (fields_list ← run_pool (files_on_disk σ2) filenames;
             response ← aggregate filenames fields_list;
             Ok (FieldsJson response), σ2)
        end
  end.

End Handler.

(** [if not fields: return name, 'Not an Invoice Image' else: return name,
    fields] *)
Definition outcome (fields : gmap string string) : value :=
  if decide (fields = ∅) then VStr "Not an Invoice Image" else VDict fields.

(** ** [Code2.py] *)

Module Code2.

Definition patterns : list (string * string) :=
  [ ("PR Number", "PR Number\s*(\d+)");
    ("Technical Specifications", "Technical Specifications\s*([%A-Za-z\s,]+)");
    ("Vendor Name", "Vendor Name\s*([A-Za-z]+)");
    ("Vendor Payment Terms", "Vendor Payment Terms\s*([%A-Za-z\s,]+)");
    ("Vendor Delivery Terms", "Vendor Delivery Terms\s*([%A-Za-z\s,\d]+)");
    ("Cost Estimate", "Cost Estimate\s*(\d+)");
    ("Budget Allocated", "Budget Allocated\s*(\d+)") ].

Definition is_image_file (filename : string) : bool :=
  Str.contains "." filename
  && bool_decide (Str.lower (Str.rsplit1_snd "." filename)
                  ∈ ["png"; "jpg"; "jpeg"; "gif"; "pdf"]).

(** [re.sub(r'\s+', ' ', text)]: every maximal run of whitespace becomes
    one space.  [in_run] says that the previous character was
    whitespace. *)
Fixpoint sub_spaces (in_run : bool) (l : list ascii) : list ascii :=
  match l with
  | [] => []
  | c :: l' =>
      if Char.isspace c then
        if in_run then sub_spaces true l'
        else " "%char :: sub_spaces true l'
      else c :: sub_spaces false l'
  end.

Definition clean_text (text : string) : string :=
  Str.strip (Str.of_chars (sub_spaces false (Str.chars text))).

(** The loop over [patterns.items()], on the recognized text; [fields]
    is the dictionary built so far.  [clean_text(None)] is a
    [TypeError] of [re.sub]. *)
Fixpoint extract_fields (patterns : list (string * string))
    (invoice_text : string) (fields : gmap string string)
  : result (gmap string string) :=
  match patterns with
  | [] => Ok fields
  | (key, pattern) :: rest =>
      m ← Re.search pattern invoice_text true;
      match m with
      | Some m =>
          g ← Re.group m 1;
          match g with
          | Some text =>
              extract_fields rest invoice_text
                (<[key := clean_text text]> fields)
          | None => Raise TypeError
          end
      | None => extract_fields rest invoice_text fields
      end
  end.

(** The preprocessing of [process_file]: grayscale, then the inverted
    binary threshold at 150. *)
Definition preprocess (image : option Cv2.image) : result Cv2.gray_image :=
  gray ← Cv2.cvtColor_BGR2GRAY image;
  Ok (Cv2.threshold_BINARY_INV gray 150 255).

(** [process_file], with the rule table as an argument. *)
Definition process_file_with (patterns : list (string * string))
    (env : Env) (fs : gmap string string) (input_image_path : string)
  : result (string * value) :=
  let image := imread env fs input_image_path in
  thresh ← preprocess image;
  invoice_text ← image_to_string env (Cv2.Gray thresh);
  fields ← extract_fields patterns invoice_text ∅;
  Ok (Os.basename input_image_path, outcome fields).

Definition process_file := process_file_with patterns.

Definition upload (env : Env) :=
  upload_with is_image_file (process_file env) env.

End Code2.

(** ** [Code1.py]

    The rule table of this file is imported from [views.regex_pattern],
    which is not part of the sources: it is an argument here. *)

Module Code1.

Definition is_image_file (filename : string) : bool :=
  Str.contains "." filename
  && bool_decide (Str.lower (Str.rsplit1_snd "." filename)
                  ∈ ["png"; "jpg"; "jpeg"; "gif"]).

(** The loop over [patterns.items()]; [None.strip()] is an
    [AttributeError]. *)
Fixpoint extract_fields (patterns : list (string * string))
    (invoice_text : string) (fields : gmap string string)
  : result (gmap string string) :=
  match patterns with
  | [] => Ok fields
  | (key, pattern) :: rest =>
      m ← Re.search pattern invoice_text false;
      match m with
      | Some m =>
          g ← Re.group m 1;
          match g with
          | Some text =>
              extract_fields rest invoice_text
                (<[key := Str.strip text]> fields)
          | None => Raise AttributeError
          end
      | None => extract_fields rest invoice_text fields
      end
  end.

(** What the recognition engine is handed: the decoded image as it is;
    [image_to_string(None)] is a [TypeError]. *)
Definition recognize (env : Env) (image : option Cv2.image) : result string :=
  match image with
  | Some img => image_to_string env (Cv2.Color img)
  | None => Raise TypeError
  end.

Definition process_file (patterns : list (string * string))
    (env : Env) (fs : gmap string string) (input_image_path : string)
  : result (string * value) :=
  let image := imread env fs input_image_path in
  invoice_text ← recognize env image;
  fields ← extract_fields patterns invoice_text ∅;
  Ok (Os.basename input_image_path, outcome fields).

Definition upload (patterns : list (string * string)) (env : Env) :=
  upload_with is_image_file (process_file patterns env) env.

End Code1.

(** The dictionary that the aggregation loop builds from the pairs of a
    file name and a result. *)
Definition store (response : gmap string value)
    (pairs : list (string * (string * value))) : gmap string value :=
  foldl (λ response p, <[p.1 := p.2.2]> response) response pairs.

(** ** The two applications *)

Inductive application : Type :=
| Code1_py (patterns : list (string * string))
| Code2_py.

Definition is_image_file_of (app : application) : string → bool :=
  match app with
  | Code1_py _ => Code1.is_image_file
  | Code2_py => Code2.is_image_file
  end.

Definition process_file_of (app : application) (env : Env)
  : gmap string string → string → result (string * value) :=
  match app with
  | Code1_py patterns => Code1.process_file patterns env
  | Code2_py => Code2.process_file env
  end.

Definition upload_of (app : application) (env : Env)
  : State → list FileStorage → result response * State :=
  match app with
  | Code1_py patterns => Code1.upload patterns env
  | Code2_py => Code2.upload env
  end.

(** The names under which the handler saves the files of a request. *)
Definition saved_names (env : Env) (σ : State) (files : list FileStorage)
  : list string :=
  (save_all env (ensure_dir UPLOAD_FOLDER σ) files).1.

(** A file that the validation loop rejects. *)
Definition rejected (app : application) (file : FileStorage) : Prop :=
  is_image_file_of app (filename file) = false
  ∨ (MAX_CONTENT_LENGTH < content_length file)%Z.

(** ** The two extraction loops as one

    The loops of the two files differ in the flag of [re.search], in what
    is done to the captured text and in the exception met on a group that
    took no part in the match. *)

Fixpoint extract_loop (ic : bool) (post : string → string) (e : exn)
    (patterns : list (string * string)) (invoice_text : string)
    (fields : gmap string string) : result (gmap string string) :=
  match patterns with
  | [] => Ok fields
  | (key, pattern) :: rest =>
      m ← Re.search pattern invoice_text ic;
      match m with
      | Some m =>
          g ← Re.group m 1;
          match g with
          | Some text =>
              extract_loop ic post e rest invoice_text
                (<[key := post text]> fields)
          | None => Raise e
          end
      | None => extract_loop ic post e rest invoice_text fields
      end
  end.

(** What [re.search] found for a rule, and what the loop stored for it:
    the match is at the first position of the text that has one, and the
    value stored under the name of the rule is [post] of its first group;
    without a match nothing is stored under that name. *)
Definition rule_outcome (ic : bool) (post : string → string)
    (text : string) (fields : gmap string string)
    (key pattern : string) : Prop :=
  ∃ o, Re.search pattern text ic = Ok o ∧
    match o with
    | Some m =>
        Re.matches_at ic pattern text (Re.m_start m) = true
        ∧ (∀ i, i < Re.m_start m → Re.matches_at ic pattern text i = false)
        ∧ ∃ g, Re.group m 1 = Ok (Some g) ∧ fields !! key = Some (post g)
    | None =>
        (∀ i, Re.matches_at ic pattern text i = false)
        ∧ fields !! key = None
    end.

(** ** A test environment *)

Module Demo.

(** Files whose bytes start with "IMG" decode to a one-pixel image whose
    three channels are the length of the file; the engine reads a fixed
    text off every image. *)
Definition env (text : string) : Env :=
  mkEnv (λ bytes,
           if String.prefix "IMG" bytes
           then Some [[(Z.of_nat (String.length bytes),
                        Z.of_nat (String.length bytes),
                        Z.of_nat (String.length bytes))]]
           else None)
        (λ _, Ok text)
        (λ n, Z.of_nat n).

Definition σ0 : State := mkState ∅ ∅ 0.

(** A request with two scans, and what it leaves and returns when the
    engine reads [page] off both. *)
Definition batch : list FileStorage :=
  [mkFile "scan_a.PNG" 2048 "IMG-a"; mkFile "scan.b.jpg" 4096 "IMG-bb"].

Definition name_a : string := "00000000-0000-0000-0000-000000000000.png".
Definition name_b : string := "00000000-0000-0000-0000-000000000001.jpg".

Definition σ2 : State :=
  mkState {["input/" +:+ name_a := "IMG-a"; "input/" +:+ name_b := "IMG-bb"]}
          {["input"]} 2.

Definition found_on_page : value :=
  VDict {["PR Number" := "4521";
          "Vendor Payment Terms" := "cash on delivery"]}.

(** Two rule sets that the specification calls malformed: a pattern
    without a group, and one with two groups. *)
Definition no_group : list (string * string) :=
  [("PR Number", "PR Number\s*\d+")].
Definition two_groups : list (string * string) :=
  [("PR Number", "(PR) Number\s*(\d+)")].

(** A request whose first file does not decode. *)
Definition corrupt_batch : list FileStorage :=
  [mkFile "scan_a.png" 2048 "garbage"; mkFile "scan_b.png" 4096 "IMG-bb"].

(** An engine that tells which kind of array it was handed. *)
Definition probe : Env :=
  mkEnv (λ _, Some [[(0, 0, 0)%Z]])
        (λ a, match a with
              | Cv2.Color _ => Ok "three channels"
              | Cv2.Gray _ => Ok "one channel"
              end)
        (λ n, Z.of_nat n).

Definition black : Cv2.image := [[(0, 0, 0)%Z]].

Definition newline : string := String (ascii_of_N 10) "".

(** Two spaces, 'Acme', three spaces, 'Corp', a newline. *)
Definition captured : string := "  Acme   Corp" +:+ newline.

Definition vendor_rule : string * string := ("Vendor", "Vendor:([A-Za-z\s]+)").
Definition vendor_text : string := "Vendor:" +:+ captured.

(** A recognized text, in lower case. *)
Definition page : string :=
  "purchase request" +:+ newline +:+
  "pr number 4521" +:+ newline +:+
  "vendor payment terms cash   on delivery" +:+ newline.

End Demo.


(** ** Predicates on patterns, used to state what the rules capture *)

Module ReSpec.

Import Re.

(** The 256 characters. *)
Definition all_chars : list ascii := map ascii_of_nat (seq 0 256).

(** The test that a one-character pattern applies, as in [Re.run]. *)
Definition atom (ic : bool) (r : regex) : option (ascii → bool) :=
  match r with
  | Literal x =>
      Some (λ c, if ic then Char.eqb (Char.lower x) (Char.lower c)
                 else Char.eqb x c)
  | AnyChar => Some (λ c, negb (Char.code c =? 10)%N)
  | Category k => Some (in_category k)
  | CharSet negate items =>
      Some (λ c, xorb negate (existsb (in_item ic c) items))
  | _ => None
  end.

(** Every character that a one-character test accepts satisfies [P]. *)
Definition test_within (P p : ascii → bool) : bool :=
  forallb (λ c, implb (p c) (P c)) all_chars.

(** Every character that [r] can consume satisfies [P]. *)
Fixpoint within (P : ascii → bool) (ic : bool) (r : regex) : bool :=
  match r with
  | Empty => true
  | Seq r1 r2 | Alt r1 r2 => within P ic r1 && within P ic r2
  | Star r' | Plus r' | Opt r' | Group _ r' => within P ic r'
  | _ =>
      match atom ic r with
      | Some p => test_within P p
      | None => false
      end
  end.

(** A lower bound on the number of characters that [r] consumes. *)
Fixpoint min_len (r : regex) : nat :=
  match r with
  | Empty | Star _ | Opt _ => 0
  | Seq r1 r2 => min_len r1 + min_len r2
  | Alt r1 r2 => Nat.min (min_len r1) (min_len r2)
  | Plus r' | Group _ r' => min_len r'
  | _ => 1
  end.

(** The last element of a sequence. *)
Fixpoint last_of (r : regex) : regex :=
  match r with
  | Seq _ r2 => last_of r2
  | _ => r
  end.

(** The pattern compiles, it ends with its first group, and this group
    consumes at least one character and only characters that satisfy
    [P]. *)
Definition captures_only (P : ascii → bool) (ic : bool) (pattern : string)
  : bool :=
  match compile pattern with
  | Some (r, ng) =>
      (1 <=? ng) &&
      match last_of r with
      | Group 1 body => within P ic body && (1 <=? min_len body)
      | _ => false
      end
  | None => false
  end.

(** A step that, when it succeeds, has consumed at least [n] characters,
    all of which satisfy [P]. *)
Definition consumes (P : ascii → bool) (n : nat)
    (step : list ascii → captures → cont → option answer) : Prop :=
  ∀ s caps k a, step s caps k = Some a →
    ∃ pre s' caps',
      s = pre ++ s' ∧ forallb P pre = true ∧ n ≤ length pre
      ∧ k s' caps' = Some a.

(** The literal characters with which a pattern begins. *)
Fixpoint literal_prefix (r : regex) : list ascii :=
  match r with
  | Literal x => [x]
  | Seq (Literal x) r2 => x :: literal_prefix r2
  | _ => []
  end.

(** The pattern compiles and begins with the characters of [label]. *)
Definition begins_with (label pattern : string) : bool :=
  match compile pattern with
  | Some (r, _) =>
      bool_decide (take (length (Str.chars label)) (literal_prefix r)
                   = Str.chars label)
  | None => false
  end.

End ReSpec.

(** The message of the validation loop for a file that it rejects. *)
Definition rejection (is_image_file : string → bool) (file : FileStorage)
  : string :=
  if is_image_file (filename file)
  then filename file +:+ " is too large (max size 5MB)"
  else filename file +:+ " is not an image file".

(** A file that passes both checks of the validation loop. *)
Definition accepted (is_image_file : string → bool) (file : FileStorage)
  : Prop :=
  is_image_file (filename file) = true
  ∧ (content_length file <= MAX_CONTENT_LENGTH)%Z.

(** The 128 bits of a UUID. *)
Definition bits128 (u : Z) : Z := (u mod 2 ^ 128)%Z.

(** The 32 digits of a UUID with its four dashes, as in [Uuid.str]. *)
Definition dashed (h : list ascii) : list ascii :=
  take 8 h ++ "-"%char :: take 4 (drop 8 h) ++ "-"%char ::
  take 4 (drop 12 h) ++ "-"%char :: take 4 (drop 16 h) ++ "-"%char ::
  drop 20 h.

(** The characters that the free-text rules capture: letters, the percent
    sign, the comma and whitespace, and digits when [digits] is set; and
    the characters of the values stored for them, where the only whitespace
    is the space. *)
Definition rule_char (digits : bool) (c : ascii) : bool :=
  Char.isalpha c || Char.eqb c "%" || Char.eqb c "," || Char.isspace c
  || (digits && Char.isdigit c).
Definition stored_char (digits : bool) (c : ascii) : bool :=
  Char.isalpha c || Char.eqb c "%" || Char.eqb c "," || Char.eqb c " "
  || (digits && Char.isdigit c).

(** * Properties *)

(** ** Characters and strings *)

Ltac each_char c :=
  destruct c as [[] [] [] [] [] [] [] []]; vm_compute; try reflexivity.

Lemma lower_lower c : Char.lower (Char.lower c) = Char.lower c.
Proof. each_char c. Qed.

Lemma upper_lower c : Char.upper (Char.lower c) = Char.upper c.
Proof. each_char c. Qed.

Lemma lower_swapcase c : Char.lower (Char.swapcase c) = Char.lower c.
Proof. each_char c. Qed.

Lemma in_category_lower k c :
  Re.in_category k (Char.lower c) = Re.in_category k c.
Proof. destruct k; each_char c. Qed.

Lemma newline_lower c :
  (Char.code (Char.lower c) =? 10)%N = (Char.code c =? 10)%N.
Proof. each_char c. Qed.

Lemma Char_eqb_eq a b : Char.eqb a b = true ↔ a = b.
Proof.
  unfold Char.eqb, Char.code. rewrite N.eqb_eq. split; [|by intros ->].
  intros H. rewrite <- (ascii_N_embedding a), <- (ascii_N_embedding b).
  by rewrite H.
Qed.

Lemma chars_of_chars l : Str.chars (Str.of_chars l) = l.
Proof. apply list_ascii_of_string_of_list_ascii. Qed.

Lemma of_chars_chars s : Str.of_chars (Str.chars s) = s.
Proof. apply string_of_list_ascii_of_string. Qed.

Section Whitespace.

Implicit Types (l : list ascii) (b : bool).

Local Abbreviation nonspace := (λ c, negb (Char.isspace c)).

Lemma sub_spaces_single b l :
  Str.single_spaced b (Code2.sub_spaces b l) = true.
Proof.
  revert b. induction l as [|c l IH]; intros b; simpl; [done|].
  destruct (Char.isspace c) eqn:Ec.
  - destruct b; simpl; [done|]. change (Char.isspace " ") with true.
    simpl. done.
  - simpl. rewrite Ec. done.
Qed.

Lemma sub_spaces_plain b l :
  forallb Str.plain_space (Code2.sub_spaces b l) = true.
Proof.
  revert b. induction l as [|c l IH]; intros b; simpl; [done|].
  destruct (Char.isspace c) eqn:Ec; [destruct b|]; simpl; rewrite ?IH;
    try done.
  unfold Str.plain_space. by rewrite Ec.
Qed.

Lemma sub_spaces_ink b l :
  List.filter nonspace (Code2.sub_spaces b l) = List.filter nonspace l.
Proof.
  revert b. induction l as [|c l IH]; intros b; simpl; [done|].
  destruct (Char.isspace c) eqn:Ec; [destruct b|]; simpl;
    rewrite ?Ec; simpl; by rewrite IH.
Qed.

Lemma single_spaced_weaken l : 
  Str.single_spaced true l = true → Str.single_spaced false l = true.
Proof. destruct l as [|c l]; simpl; [done|]. by destruct (Char.isspace c). Qed.

Lemma lstrip_single b l :
  Str.single_spaced b l = true →
  Str.single_spaced true (Str.lstrip_chars l) = true.
Proof.
  revert b. induction l as [|c l IH]; intros b; simpl; [done|].
  destruct (Char.isspace c) eqn:Ec.
  - intros [_ H]%andb_true_iff. eauto.
  - simpl. by rewrite Ec.
Qed.

Lemma lstrip_plain l :
  forallb Str.plain_space l = true →
  forallb Str.plain_space (Str.lstrip_chars l) = true.
Proof.
  induction l as [|c l IH]; simpl; [done|].
  intros [Hc Hl]%andb_true_iff.
  destruct (Char.isspace c); [auto|]. simpl. by rewrite Hc, Hl.
Qed.

Lemma lstrip_ink l :
  List.filter nonspace (Str.lstrip_chars l) = List.filter nonspace l.
Proof.
  induction l as [|c l IH]; simpl; [done|].
  destruct (Char.isspace c) eqn:Ec; simpl; [done|]. by rewrite Ec.
Qed.

Lemma rstrip_single b l :
  Str.single_spaced b l = true →
  Str.single_spaced b (Str.rstrip_chars l) = true.
Proof.
  revert b. induction l as [|c l IH]; intros b H; simpl; [done|].
  destruct (Str.rstrip_chars l) as [|x r] eqn:Er.
  - destruct (Char.isspace c) eqn:Ec; simpl; [done|]. by rewrite Ec.
  - rewrite <- Er in IH |- *. simpl in H |- *. destruct (Char.isspace c).
    + apply andb_true_iff in H as [-> H]. simpl. by apply IH.
    + by apply IH.
Qed.

Lemma rstrip_plain l :
  forallb Str.plain_space l = true →
  forallb Str.plain_space (Str.rstrip_chars l) = true.
Proof.
  induction l as [|c l IH]; simpl; [done|].
  intros [Hc Hl]%andb_true_iff.
  destruct (Str.rstrip_chars l) as [|x r] eqn:Er.
  - destruct (Char.isspace c); simpl; [done|]. by rewrite Hc.
  - change (forallb Str.plain_space (c :: x :: r)) 
      with (Str.plain_space c && forallb Str.plain_space (x :: r)).
    by rewrite Hc, IH.
Qed.

Lemma rstrip_ink l :
  List.filter nonspace (Str.rstrip_chars l) = List.filter nonspace l.
Proof.
  induction l as [|c l IH]; simpl; [done|].
  destruct (Str.rstrip_chars l) as [|x r] eqn:Er.
  - rewrite <- IH. destruct (Char.isspace c) eqn:Ec; simpl; by rewrite ?Ec.
  - change (List.filter nonspace (c :: x :: r))
      with (if nonspace c then c :: List.filter nonspace (x :: r)
            else List.filter nonspace (x :: r)).
    by rewrite IH.
Qed.

Lemma rstrip_ends_well l : Str.ends_well (Str.rstrip_chars l) = true.
Proof.
  induction l as [|c l IH]; simpl; [done|].
  destruct (Str.rstrip_chars l) as [|x r] eqn:Er.
  - destruct (Char.isspace c) eqn:Ec; simpl; [done|]. by rewrite Ec.
  - done.
Qed.

(** What [clean_text] returns has no whitespace at its ends and no
    whitespace but single spaces. *)
Lemma clean_text_normal text : Str.normal (Code2.clean_text text) = true.
Proof.
  unfold Str.normal, Code2.clean_text, Str.strip, Str.strip_chars.
  rewrite !chars_of_chars. apply andb_true_iff. split.
  - apply andb_true_iff. split; [|apply rstrip_ends_well].
    apply rstrip_single, (lstrip_single false), sub_spaces_single.
  - apply rstrip_plain, lstrip_plain, sub_spaces_plain.
Qed.

(** [clean_text] keeps the characters that are not whitespace, in their
    order. *)
Lemma clean_text_ink text : Str.ink (Code2.clean_text text) = Str.ink text.
Proof.
  unfold Str.ink, Code2.clean_text, Str.strip, Str.strip_chars.
  rewrite !chars_of_chars. 
  by rewrite rstrip_ink, lstrip_ink, sub_spaces_ink.
Qed.

End Whitespace.

(** ** The matcher *)

Section Matcher.

Implicit Types (r : Re.regex) (s : list ascii) (caps : Re.captures)
  (k : Re.cont) (a : Re.answer).

Import Re (has, keeps).

Lemma has_cons n m v caps : has n caps → has n ((m, v) :: caps).
Proof.
  unfold has. simpl. destruct (m =? n)%nat; eauto.
Qed.

Lemma has_here n v caps : has n ((n, v) :: caps).
Proof. unfold has. simpl. rewrite Nat.eqb_refl. eauto. Qed.

Lemma one_keeps p : keeps (Re.one p).
Proof.
  intros s caps k a H. destruct s as [|c s']; [done|]. simpl in H.
  destruct (p c); [eauto | done].
Qed.

Lemma repeat_max_keeps step n : keeps step → keeps (Re.repeat_max step n).
Proof.
  intros Hstep. induction n as [|n IH]; intros s caps k a H; simpl in H.
  - eauto.
  - destruct (step s caps _) as [a'|] eqn:E; [|eauto].
    simplify_eq. apply Hstep in E as (s' & caps' & E & Hc).
    destruct (length s' <? length s)%nat; [|done].
    apply IH in E as (s'' & caps'' & E & Hc'). eauto 6.
Qed.

(** Every successful run ends in its continuation, with the groups it
    was given and with those that the pattern always captures. *)
Lemma run_captures ic r :
  ∀ s caps k a, Re.run ic r s caps k = Some a →
    ∃ s' caps', k s' caps' = Some a
      ∧ (∀ n, has n caps → has n caps')
      ∧ (∀ n, Re.always_captures n r = true → has n caps').
Proof.
  assert (Hone : ∀ p s caps k a, Re.one p s caps k = Some a →
            ∃ s' caps', k s' caps' = Some a
              ∧ (∀ n, has n caps → has n caps')
              ∧ (∀ n, false = true → has n caps')).
  { intros p s caps k a H. apply one_keeps in H as (s' & caps' & ? & ?).
    exists s', caps'. split_and!; [done..|]. discriminate. }
  induction r as [|x| |cat|neg items|r1 IH1 r2 IH2|r1 IH1 r2 IH2
                 |r IH|r IH|r IH|m r IH];
    intros s caps k a H; simpl in H |- *; eauto.
  - exists s, caps. split_and!; [done..|]. discriminate.
  - apply IH1 in H as (s1 & caps1 & H & Hk1 & Ha1).
    apply IH2 in H as (s2 & caps2 & H & Hk2 & Ha2).
    exists s2, caps2. split_and!; [done|eauto|].
    intros n [?|?]%orb_true_iff; eauto.
  - destruct (Re.run ic r1 s caps k) as [a'|] eqn:E.
    + simplify_eq. apply IH1 in E as (s1 & caps1 & H & Hk1 & Ha1).
      exists s1, caps1. split_and!; [done..|].
      intros n [??]%andb_true_iff; eauto.
    + apply IH2 in H as (s1 & caps1 & H & Hk1 & Ha1).
      exists s1, caps1. split_and!; [done..|].
      intros n [??]%andb_true_iff; eauto.
  - apply repeat_max_keeps in H as (s1 & caps1 & H & Hk1).
    + exists s1, caps1. split_and!; [done..|]. discriminate.
    + intros s0 caps0 k0 a0 H0.
      apply IH in H0 as (s1 & caps1 & ? & ? & ?). eauto.
  - apply IH in H as (s1 & caps1 & H & Hk1 & Ha1).
    apply repeat_max_keeps in H as (s2 & caps2 & H & Hk2).
    + exists s2, caps2. split_and!; eauto.
    + intros s0 caps0 k0 a0 H0.
      apply IH in H0 as (s3 & caps3 & ? & ? & ?). eauto.
  - destruct (Re.run ic r s caps k) as [a'|] eqn:E.
    + simplify_eq. apply IH in E as (s1 & caps1 & H & Hk1 & Ha1).
      exists s1, caps1. split_and!; [done..|]. discriminate.
    + exists s, caps. split_and!; [done..|]. discriminate.
  - apply IH in H as (s1 & caps1 & H & Hk1 & Ha1).
    eexists s1, _. split_and!; [exact H| |].
    + intros n Hn. apply has_cons. eauto.
    + intros n [->%Nat.eqb_eq|?]%orb_true_iff.
      * apply has_here.
      * apply has_cons. eauto.
Qed.

(** A match of a usable pattern has its first group. *)
Lemma match_here_captures ic r s rest caps n :
  Re.always_captures n r = true →
  Re.match_here ic r s = Some (rest, caps) → has n caps.
Proof.
  intros Hn H. apply run_captures in H as (s' & caps' & H & _ & Ha).
  simplify_eq. eauto.
Qed.

(** [search_from] returns the match at the first position that has one. *)
Lemma search_from_leftmost ic r ng text pos s :
  match Re.search_from ic r ng text pos s with
  | Some m =>
      ∃ j rest,
        j ≤ length s
        ∧ Re.m_start m = pos + j
        ∧ Re.match_here ic r (drop j s) = Some (rest, Re.m_caps m)
        ∧ Re.m_end m = Re.m_start m + (length (drop j s) - length rest)
        ∧ Re.m_groups m = ng
        ∧ Re.m_text m = text
        ∧ ∀ i, i < j → Re.match_here ic r (drop i s) = None
  | None => ∀ i, i ≤ length s → Re.match_here ic r (drop i s) = None
  end.
Proof.
  revert pos. induction s as [|c s IH]; intros pos; simpl.
  - destruct (Re.match_here ic r []) as [[rest caps]|] eqn:E.
    + exists 0, rest. simpl. split_and!; try done; lia.
    + intros i Hi. by rewrite drop_nil.
  - destruct (Re.match_here ic r (c :: s)) as [[rest caps]|] eqn:E.
    + exists 0, rest. simpl. split_and!; try done; lia.
    + specialize (IH (S pos)).
      destruct (Re.search_from ic r ng text (S pos) s) as [m|].
      * destruct IH as (j & rest & Hj & Hst & Hm & Hend & Hng & Htx & Hleft).
        exists (S j), rest. simpl. split_and!; try done; try lia.
        intros [|i] Hi; simpl; [done|]. apply Hleft. lia.
      * intros [|i] Hi; simpl; [done|]. apply IH. lia.
Qed.

(** *** Matching with [IGNORECASE] does not see the case of the text *)

Import Re (agree, same_up_to_case, same_span, cont_agree, step_agree).

Lemma same_up_to_case_length s1 s2 :
  same_up_to_case s1 s2 → length s1 = length s2.
Proof.
  intros H. apply (f_equal length) in H. by rewrite !length_map in H.
Qed.

Lemma one_agree p :
  (∀ c d, Char.lower c = Char.lower d → p c = p d) → step_agree (Re.one p).
Proof.
  intros Hp s1 s2 caps1 caps2 k1 k2 Hs Hk. unfold same_up_to_case in Hs.
  destruct s1 as [|c s1], s2 as [|d s2]; try discriminate; simpl; [done|].
  injection Hs as Hc Hs. rewrite (Hp c d Hc).
  destruct (p d); [by apply Hk | done].
Qed.

Lemma in_item_ignores_case c d it :
  Char.lower c = Char.lower d → Re.in_item true c it = Re.in_item true d it.
Proof.
  intros H. destruct it as [x|lo hi|cat]; simpl.
  - by rewrite H.
  - by rewrite <- (upper_lower c), <- (upper_lower d), H.
  - by rewrite <- (in_category_lower cat c), <- (in_category_lower cat d), H.
Qed.

Lemma repeat_max_agree step n :
  step_agree step → step_agree (Re.repeat_max step n).
Proof.
  intros Hstep. induction n as [|n IH];
    intros s1 s2 caps1 caps2 k1 k2 Hs Hk; simpl; [by apply Hk|].
  match goal with
  | |- agree match ?x with _ => _ end match ?y with _ => _ end =>
      assert (agree x y) as Hxy; [|destruct x, y; try done; by apply Hk]
  end.
  apply Hstep; [done|]. intros s1' s2' caps1' caps2' Hs'.
  rewrite (same_up_to_case_length _ _ Hs), (same_up_to_case_length _ _ Hs').
  destruct (length s2' <? length s2); [by apply IH | done].
Qed.

Lemma run_ignores_case r : step_agree (Re.run true r).
Proof.
  induction r as [|x| |cat|neg items|r1 IH1 r2 IH2|r1 IH1 r2 IH2
                 |r IH|r IH|r IH|m r IH];
    intros s1 s2 caps1 caps2 k1 k2 Hs Hk; simpl.
  - by apply Hk.
  - apply one_agree; [|done..]. intros c d H. by rewrite H.
  - apply one_agree; [|done..]. intros c d H.
    by rewrite <- (newline_lower c), <- (newline_lower d), H.
  - apply one_agree; [|done..]. intros c d H.
    by rewrite <- (in_category_lower cat c), <- (in_category_lower cat d), H.
  - apply one_agree; [|done..]. intros c d H. f_equal.
    induction items as [|it items IHi]; simpl; [done|].
    by rewrite IHi, (in_item_ignores_case c d it H).
  - apply IH1; [done|]. intros s1' s2' caps1' caps2' Hs'. by apply IH2.
  - pose proof (IH1 s1 s2 caps1 caps2 k1 k2 Hs Hk) as H1.
    destruct (Re.run true r1 s1 caps1 k1), (Re.run true r1 s2 caps2 k2);
      try done. by apply IH2.
  - rewrite (same_up_to_case_length _ _ Hs). by apply repeat_max_agree.
  - apply IH; [done|]. intros s1' s2' caps1' caps2' Hs'.
    rewrite (same_up_to_case_length _ _ Hs'). by apply repeat_max_agree.
  - pose proof (IH s1 s2 caps1 caps2 k1 k2 Hs Hk) as H1.
    destruct (Re.run true r s1 caps1 k1), (Re.run true r s2 caps2 k2);
      try done. by apply Hk.
  - apply IH; [done|]. intros s1' s2' caps1' caps2' Hs'. by apply Hk.
Qed.

Lemma search_from_ignores_case r ng t1 t2 pos s1 s2 :
  same_up_to_case s1 s2 →
  same_span (Re.search_from true r ng t1 pos s1)
            (Re.search_from true r ng t2 pos s2).
Proof.
  revert pos s2. induction s1 as [|c s1 IH]; intros pos [|d s2] Hs;
    unfold same_up_to_case in Hs; try discriminate; simpl.
  - destruct (Re.match_here true r []) as [[rest caps]|]; simpl; done.
  - injection Hs as Hc Hs.
    assert (agree (Re.match_here true r (c :: s1))
                  (Re.match_here true r (d :: s2))) as Hm.
    { apply run_ignores_case.
      - unfold same_up_to_case. simpl. by rewrite Hc, Hs.
      - intros s1' s2' caps1' caps2' Hs'. simpl.
        by apply same_up_to_case_length. }
    destruct (Re.match_here true r (c :: s1)) as [[rest1 caps1]|],
             (Re.match_here true r (d :: s2)) as [[rest2 caps2]|];
      try done.
    + simpl in *. rewrite Hm, (same_up_to_case_length _ _ Hs). done.
    + by apply IH.
Qed.

(** [re.search] with [IGNORECASE] finds the same span in two texts that
    differ in case only. *)
Lemma search_ignores_case pattern text1 text2 :
  Str.lower text1 = Str.lower text2 →
  match Re.search pattern text1 true, Re.search pattern text2 true with
  | Ok o1, Ok o2 => same_span o1 o2
  | Raise e1, Raise e2 => e1 = e2
  | _, _ => False
  end.
Proof.
  intros H. unfold Re.search.
  destruct (Re.compile pattern) as [[r ng]|]; [|done].
  apply search_from_ignores_case.
  apply (f_equal Str.chars) in H. unfold Str.lower in H.
  by rewrite !chars_of_chars in H.
Qed.

Lemma found_ignores_case pattern text1 text2 :
  Str.lower text1 = Str.lower text2 →
  Re.found true text1 pattern = Re.found true text2 pattern.
Proof.
  intros H. apply (search_ignores_case pattern) in H. unfold Re.found.
  destruct (Re.search pattern text1 true) as [[m1|]|],
           (Re.search pattern text2 true) as [[m2|]|]; done.
Qed.

End Matcher.

(** ** The extraction loop *)

Section Extraction.

Implicit Types (rules : list (string * string)) (text key pattern : string)
  (fields : gmap string string).

Lemma Code2_extract_fields_loop rules text fields :
  Code2.extract_fields rules text fields
  = extract_loop true Code2.clean_text TypeError rules text fields.
Proof.
  revert fields. induction rules as [|[key pattern] rules IH];
    intros fields; simpl; [done|].
  destruct (Re.search pattern text true) as [[m|]|]; simpl; [|done..].
  destruct (Re.group m 1) as [[g|]|]; simpl; done.
Qed.

Lemma Code1_extract_fields_loop rules text fields :
  Code1.extract_fields rules text fields
  = extract_loop false Str.strip AttributeError rules text fields.
Proof.
  revert fields. induction rules as [|[key pattern] rules IH];
    intros fields; simpl; [done|].
  destruct (Re.search pattern text false) as [[m|]|]; simpl; [|done..].
  destruct (Re.group m 1) as [[g|]|]; simpl; done.
Qed.

(** A usable pattern is searched without an exception, and a match of it
    has its first group. *)
Lemma usable_search ic pattern text :
  Re.usable pattern = true →
  ∃ o, Re.search pattern text ic = Ok o ∧
    match o with
    | Some m => ∃ g, Re.group m 1 = Ok (Some g)
    | None => True
    end.
Proof.
  unfold Re.usable, Re.search.
  destruct (Re.compile pattern) as [[r ng]|]; [|done].
  intros [Hng Hcap]%andb_true_iff. eexists. split; [done|].
  pose proof (search_from_leftmost ic r ng (Str.chars text) 0
                (Str.chars text)) as H.
  destruct (Re.search_from _ _ _ _ _ _) as [m|]; [|done].
  destruct H as (j & rest & _ & _ & Hm & _ & Hg & _).
  apply (match_here_captures _ _ _ _ _ 1 Hcap) in Hm as [v Hv].
  exists (Str.of_chars v). unfold Re.group. rewrite Hg, Hv.
  change (1 =? 0) with false. cbv iota. by rewrite Hng.
Qed.

(** What [re.search] returns is the leftmost match. *)
Lemma search_leftmost ic pattern text o :
  Re.search pattern text ic = Ok o →
  match o with
  | Some m =>
      Re.matches_at ic pattern text (Re.m_start m) = true
      ∧ ∀ i, i < Re.m_start m → Re.matches_at ic pattern text i = false
  | None => ∀ i, Re.matches_at ic pattern text i = false
  end.
Proof.
  unfold Re.search, Re.matches_at.
  destruct (Re.compile pattern) as [[r ng]|]; [|done].
  intros [= <-].
  pose proof (search_from_leftmost ic r ng (Str.chars text) 0
                (Str.chars text)) as H.
  destruct (Re.search_from _ _ _ _ _ _) as [m|].
  - destruct H as (j & rest & _ & -> & Hm & _ & _ & _ & Hleft). simpl. split.
    + apply bool_decide_eq_true. rewrite Hm. eauto.
    + intros i Hi. apply bool_decide_eq_false. rewrite Hleft by done.
      by intros [??].
  - intros i. apply bool_decide_eq_false.
    destruct (decide (i ≤ length (Str.chars text))) as [Hi|Hi].
    + rewrite H by done. by intros [??].
    + rewrite drop_ge by lia. rewrite <- (drop_all (Str.chars text)).
      rewrite H by done. by intros [??].
Qed.

(** With usable rules the loop ends without an exception. *)
Lemma extract_loop_total ic post e rules text fields :
  Forall (λ rule, Re.usable rule.2 = true) rules →
  ∃ fields', extract_loop ic post e rules text fields = Ok fields'.
Proof.
  intros Hrules. revert fields.
  induction Hrules as [|[key pattern] rules Hu _ IH]; intros fields; simpl.
  - eauto.
  - destruct (usable_search ic pattern text Hu) as (o & -> & Ho). simpl.
    destruct o as [m|]; [|done]. destruct Ho as [g ->]. simpl. done.
Qed.

(** What the loop stores, rule by rule. *)
Lemma extract_loop_rules ic post e rules text fields0 fields :
  NoDup rules.*1 →
  extract_loop ic post e rules text fields0 = Ok fields →
  (∀ key, key ∉ rules.*1 → fields !! key = fields0 !! key)
  ∧ ∀ key pattern, (key, pattern) ∈ rules →
      ∃ o, Re.search pattern text ic = Ok o ∧
        match o with
        | Some m => ∃ g, Re.group m 1 = Ok (Some g)
                         ∧ fields !! key = Some (post g)
        | None => fields !! key = fields0 !! key
        end.
Proof.
  revert fields0. induction rules as [|[k p] rules IH];
    intros fields0 Hnd H; simpl in *.
  - simplify_eq. split; [done|]. intros key pattern []%elem_of_nil.
  - apply NoDup_cons in Hnd as [Hk Hnd].
    destruct (Re.search p text ic) as [o|] eqn:Es; [|done]. simpl in H.
    destruct o as [m|].
    + destruct (Re.group m 1) as [[g|]|] eqn:Eg; [|done..]. simpl in H.
      apply IH in H as [Hout Hin]; [|done]. split.
      * intros key [Hne Hkey]%not_elem_of_cons.
        rewrite Hout by done. by rewrite lookup_insert_ne.
      * intros key pattern [[= -> ->]|Hr]%elem_of_cons.
        -- exists (Some m). split; [done|]. exists g. split; [done|].
           rewrite Hout by done. apply lookup_insert_eq.
        -- destruct (Hin key pattern Hr) as (o & Ho & Hres).
           exists o. split; [done|]. destruct o; [done|].
           rewrite Hres. apply lookup_insert_ne. intros ->. apply Hk.
           apply list_elem_of_fmap. by exists (key, pattern).
    + apply IH in H as [Hout Hin]; [|done]. split.
      * intros key [Hne Hkey]%not_elem_of_cons. auto.
      * intros key pattern [[= -> ->]|Hr]%elem_of_cons; [|auto].
        exists None. split; [done|]. auto.
Qed.

(** The dictionary is empty at the end exactly when it was empty at the
    start and no rule matched. *)
Lemma extract_loop_empty ic post e rules text fields0 fields :
  extract_loop ic post e rules text fields0 = Ok fields →
  fields = ∅ ↔
  fields0 = ∅ ∧ existsb (λ rule, Re.found ic text rule.2) rules = false.
Proof.
  revert fields0. induction rules as [|[k p] rules IH];
    intros fields0 H; simpl in *.
  - simplify_eq. split; [done | by intros [??]].
  - unfold Re.found at 1. simpl.
    destruct (Re.search p text ic) as [o|] eqn:Es; [|done]. simpl in H.
    destruct o as [m|].
    + destruct (Re.group m 1) as [[g|]|] eqn:Eg; [|done..]. simpl in H.
      apply IH in H. rewrite H. simpl. split; [|by intros [_ ?]].
      intros [Hins _]. by apply insert_non_empty in Hins.
    + apply IH in H. by rewrite H.
Qed.

Lemma extract_loop_rule_outcome ic post e rules text fields :
  NoDup rules.*1 →
  extract_loop ic post e rules text ∅ = Ok fields →
  (∀ key, key ∉ rules.*1 → fields !! key = None)
  ∧ ∀ key pattern, (key, pattern) ∈ rules →
      rule_outcome ic post text fields key pattern.
Proof.
  intros Hnd H. apply extract_loop_rules in H as [Hout Hin]; [|done].
  split; [intros key Hkey; by rewrite Hout|].
  intros key pattern Hr. destruct (Hin key pattern Hr) as (o & Ho & Hres).
  exists o. split; [done|]. pose proof (search_leftmost _ _ _ _ Ho) as Hl.
  destruct o as [m|]; [by destruct Hl | done].
Qed.




Lemma patterns_usable :
  Forall (λ rule, Re.usable rule.2 = true) Code2.patterns.
Proof. repeat constructor. Qed.

Lemma patterns_NoDup : NoDup Code2.patterns.*1.
Proof. apply (bool_decide_unpack _). vm_compute. reflexivity. Qed.



(** The shipped rules on a page in lower case: [Code2.py] finds two
    fields, [Code1.py] none. *)
Example page_Code2 :
  Code2.extract_fields Code2.patterns Demo.page ∅
  = Ok {["PR Number" := "4521";
         "Vendor Payment Terms" := "cash on delivery"]}.
Proof. vm_compute. reflexivity. Qed.

Example page_Code1 :
  Code1.extract_fields Code2.patterns Demo.page ∅ = Ok ∅.
Proof. vm_compute. reflexivity. Qed.

(** The scenario of the specification. *)
Example invoice_number_scenario :
  Code2.extract_fields [("Invoice Number", "Invoice Number\s*(\S+)")]
    "... Invoice Number INV-001 Date ..." ∅
  = Ok {["Invoice Number" := "INV-001"]}
  ∧ (fields ← Code2.extract_fields
                [("Invoice Number", "Invoice Number\s*(\S+)")]
                "no relevant content" ∅;
     Ok (outcome fields))
    = Ok (VStr "Not an Invoice Image").
Proof. split; vm_compute; reflexivity. Qed.

(** One step of the loop on a rule that matches. *)
Lemma extract_loop_match ic post e key pattern text m g fields :
  Re.search pattern text ic = Ok (Some m) →
  Re.group m 1 = Ok (Some g) →
  extract_loop ic post e [(key, pattern)] text fields
  = Ok (<[key := post g]> fields).
Proof. intros Hs Hg. simpl. rewrite Hs. simpl. rewrite Hg. done. Qed.

(** C7, as stated, fails in [Code1.py]: the first group of the match is
    the captured text of the claim, and what is stored has the three
    inner spaces. *)
Lemma Code1_keeps_inner_spaces :
  (∃ m, Re.search Demo.vendor_rule.2 Demo.vendor_text false = Ok (Some m)
        ∧ Re.group m 1 = Ok (Some Demo.captured))
  ∧ Code1.extract_fields [Demo.vendor_rule] Demo.vendor_text ∅
    = Ok {["Vendor" := "Acme   Corp"]}
  ∧ "Acme   Corp" ≠ "Acme Corp".
Proof.
  split_and!.
  - eexists. split; vm_compute; reflexivity.
  - vm_compute. reflexivity.
  - discriminate.
Qed.

(** C7, amended: in [Code2.py] the captured text '  Acme   Corp\n' is
    stored as 'Acme Corp'; in [Code1.py] it is stored with its ends
    trimmed only, as 'Acme   Corp'. *)
Theorem acme_corp_is_normalized key pattern text m2 m1 fields :
  Re.search pattern text true = Ok (Some m2) →
  Re.group m2 1 = Ok (Some Demo.captured) →
  Re.search pattern text false = Ok (Some m1) →
  Re.group m1 1 = Ok (Some Demo.captured) →
  Code2.clean_text Demo.captured = "Acme Corp"
  ∧ Code2.extract_fields [(key, pattern)] text fields
    = Ok (<[key := "Acme Corp"]> fields)
  ∧ Code1.extract_fields [(key, pattern)] text fields
    = Ok (<[key := "Acme   Corp"]> fields).
Proof.
  intros Hs2 Hg2 Hs1 Hg1. split; [reflexivity|]. split.
  - rewrite Code2_extract_fields_loop.
    by rewrite (extract_loop_match _ _ _ _ _ _ _ _ _ Hs2 Hg2).
  - rewrite Code1_extract_fields_loop.
    by rewrite (extract_loop_match _ _ _ _ _ _ _ _ _ Hs1 Hg1).
Qed.

Lemma acme_corp_is_normalized_witness :
  Code2.clean_text Demo.captured = "Acme Corp"
  ∧ Code2.extract_fields [Demo.vendor_rule] Demo.vendor_text ∅
    = Ok (<["Vendor" := "Acme Corp"]> ∅)
  ∧ Code1.extract_fields [Demo.vendor_rule] Demo.vendor_text ∅
    = Ok (<["Vendor" := "Acme   Corp"]> ∅).
Proof.
  eapply (acme_corp_is_normalized "Vendor" Demo.vendor_rule.2
            Demo.vendor_text _ _ ∅); vm_compute; reflexivity.
Defined.

End Extraction.

(** ** Preprocessing *)

Section Preprocessing.

Implicit Types (img : Cv2.image) (p : Cv2.pixel).

(** The grayscale value of an 8-bit pixel is an 8-bit value. *)
Lemma bgr2gray_range b g r :
  (0 <= b <= 255 → 0 <= g <= 255 → 0 <= r <= 255 →
   0 <= Cv2.bgr2gray (b, g, r) <= 255)%Z.
Proof.
  intros Hb Hg Hr. unfold Cv2.bgr2gray. rewrite Z.shiftr_div_pow2 by lia.
  change (2 ^ 15)%Z with 32768%Z. split.
  - apply Z.div_pos; lia.
  - apply Z.lt_succ_r, Z.div_lt_upper_bound; lia.
Qed.

(** A gray pixel keeps its value: the three weights add up to one. *)
Lemma bgr2gray_neutral v : Cv2.bgr2gray (v, v, v) = v.
Proof.
  unfold Cv2.bgr2gray. rewrite Z.shiftr_div_pow2 by lia.
  change (2 ^ 15)%Z with 32768%Z.
  replace (v * 3735 + v * 19235 + v * 9798 + 16384)%Z
    with (16384 + v * 32768)%Z by lia.
  rewrite Z.div_add by lia. reflexivity.
Qed.

Local Abbreviation binarize := (Cv2.binary_inv 150 255).

(** The preprocessing of a decoded image, pixel by pixel. *)
Lemma preprocess_decoded img :
  Code2.preprocess (Some img)
  = Ok (map (map (λ p, binarize (Cv2.bgr2gray p))) img).
Proof.
  unfold Code2.preprocess, Cv2.cvtColor_BGR2GRAY, Cv2.threshold_BINARY_INV.
  simpl. f_equal. rewrite map_map. apply map_ext. intros row.
  rewrite map_map. reflexivity.
Qed.

Lemma preprocess_undecoded : Code2.preprocess None = Raise cv2_error.
Proof. reflexivity. Qed.

Lemma binarize_binary v : binarize v = 0%Z ∨ binarize v = 255%Z.
Proof. unfold Cv2.binary_inv. destruct (150 <? v)%Z; auto. Qed.

(** On a binary value the inverted threshold is the complement. *)
Lemma binarize_flips v :
  v = 0%Z ∨ v = 255%Z → binarize v = (255 - v)%Z.
Proof. intros [-> | ->]; reflexivity. Qed.

Lemma binarize_twice v : binarize (binarize v) = (255 - binarize v)%Z.
Proof. apply binarize_flips, binarize_binary. Qed.

Lemma binarize_thrice v : binarize (binarize (binarize v)) = binarize v.
Proof. destruct (binarize_binary v) as [-> | ->]; reflexivity. Qed.

Lemma map_map2 {A B C} (f : A → B) (h : B → C) (l : list (list A)) :
  map (map h) (map (map f) l) = map (map (λ x, h (f x))) l.
Proof.
  rewrite map_map. apply map_ext. intros row. apply map_map.
Qed.

Lemma dims_map {A B} (f : A → B) (l : list (list A)) :
  Cv2.dims (map (map f) l) = Cv2.dims l.
Proof.
  unfold Cv2.dims. rewrite length_map, map_map. f_equal.
  apply map_ext. intros row. apply length_map.
Qed.

Lemma lookup_map2 {A B} (f : A → B) (l : list (list A)) i j :
  (map (map f) l !! i ≫= (.!! j)) = f <$> (l !! i ≫= (.!! j)).
Proof.
  rewrite list_lookup_fmap. destruct (l !! i) as [row|]; simpl; [|done].
  apply list_lookup_fmap.
Qed.

Lemma Forall_map2 {A B} (P : B → Prop) (f : A → B) (l : list (list A)) :
  (∀ x, P (f x)) → Forall (Forall P) (map (map f) l).
Proof.
  intros Hf. apply Forall_forall. intros row Hrow.
  apply list_elem_of_In, in_map_iff in Hrow as (row' & <- & _).
  apply Forall_forall. intros y Hy.
  apply list_elem_of_In, in_map_iff in Hy as (x & <- & _). apply Hf.
Qed.

(** What each application hands to the recognition engine. *)
Lemma Code2_process_file_decoded rules env fs path img :
  imread env fs path = Some img →
  Code2.process_file_with rules env fs path
  = (text ← image_to_string env
              (Cv2.Gray (map (map (λ p, binarize (Cv2.bgr2gray p))) img));
     fields ← Code2.extract_fields rules text ∅;
     Ok (Os.basename path, outcome fields)).
Proof.
  intros Him. unfold Code2.process_file_with. rewrite Him.
  rewrite preprocess_decoded. reflexivity.
Qed.

Lemma Code1_process_file_decoded rules env fs path img :
  imread env fs path = Some img →
  Code1.process_file rules env fs path
  = (text ← image_to_string env (Cv2.Color img);
     fields ← Code1.extract_fields rules text ∅;
     Ok (Os.basename path, outcome fields)).
Proof.
  intros Him. unfold Code1.process_file. rewrite Him. reflexivity.
Qed.

(** C6, as stated, fails in [Code1.py]: its [process_file] has no
    preprocessing step, so the engine is handed the decoded
    three-channel image and not the binarized one. *)
Lemma Code1_recognizes_the_raw_image :
  Code1.recognize Demo.probe (Some Demo.black)
  ≠ (thresh ← Code2.preprocess (Some Demo.black);
     image_to_string Demo.probe (Cv2.Gray thresh)).
Proof. vm_compute. discriminate. Qed.

(** C6, amended: in [Code2.py] a decoded image is turned into one
    channel and binarized at 150 with inverted polarity (0 above the
    threshold, 255 at or below it); the result has the dimensions of the
    input, holds only 0 and 255, is a function of the image alone, and is
    what the engine is handed.  In [Code1.py] the engine is handed the
    decoded image unchanged. *)
Theorem preprocess_binarizes_at_150 rules env fs path img :
  imread env fs path = Some img →
  ∃ out,
    Code2.preprocess (Some img) = Ok out
    ∧ Cv2.dims out = Cv2.dims img
    ∧ (∀ i j,
         out !! i ≫= (.!! j)
         = (λ p, if (150 <? Cv2.bgr2gray p)%Z then 0%Z else 255%Z)
             <$> (img !! i ≫= (.!! j)))
    ∧ Forall (Forall (λ v, v = 0%Z ∨ v = 255%Z)) out
    ∧ Code2.process_file_with rules env fs path
      = (text ← image_to_string env (Cv2.Gray out);
         fields ← Code2.extract_fields rules text ∅;
         Ok (Os.basename path, outcome fields))
    ∧ Code1.process_file rules env fs path
      = (text ← image_to_string env (Cv2.Color img);
         fields ← Code1.extract_fields rules text ∅;
         Ok (Os.basename path, outcome fields)).
Proof.
  intros Him. eexists. split; [apply preprocess_decoded|].
  split; [apply dims_map|].
  split; [intros i j; apply lookup_map2|].
  split; [apply Forall_map2; intros p; apply binarize_binary|].
  split.
  - by apply Code2_process_file_decoded.
  - by apply Code1_process_file_decoded.
Qed.

Lemma preprocess_binarizes_at_150_witness :
  ∃ out,
    Code2.preprocess (Some Demo.black) = Ok out
    ∧ Cv2.dims out = Cv2.dims Demo.black
    ∧ (∀ i j,
         out !! i ≫= (.!! j)
         = (λ p, if (150 <? Cv2.bgr2gray p)%Z then 0%Z else 255%Z)
             <$> (Demo.black !! i ≫= (.!! j)))
    ∧ Forall (Forall (λ v, v = 0%Z ∨ v = 255%Z)) out
    ∧ Code2.process_file_with Code2.patterns Demo.probe {["input/x.png" := "bytes"]} "input/x.png"
      = (text ← image_to_string Demo.probe (Cv2.Gray out);
         fields ← Code2.extract_fields Code2.patterns text ∅;
         Ok (Os.basename "input/x.png", outcome fields))
    ∧ Code1.process_file Code2.patterns Demo.probe {["input/x.png" := "bytes"]} "input/x.png"
      = (text ← image_to_string Demo.probe (Cv2.Color Demo.black);
         fields ← Code1.extract_fields Code2.patterns text ∅;
         Ok (Os.basename "input/x.png", outcome fields)).
Proof.
  apply (preprocess_binarizes_at_150 Code2.patterns Demo.probe
           {["input/x.png" := "bytes"]} "input/x.png" Demo.black).
  reflexivity.
Defined.

(** C5, as stated, fails: the black pixel is normalized to 255, and
    normalizing that image again gives 0. *)
Lemma renormalizing_changes_pixels :
  Code2.preprocess (Some Demo.black) = Ok [[255%Z]]
  ∧ Code2.preprocess (Some (Cv2.gray_as_bgr [[255%Z]])) ≠ Ok [[255%Z]].
Proof. split; [reflexivity | vm_compute; discriminate]. Qed.

(** C5, amended: normalizing an already normalized image replaces every
    pixel value by its complement (0 becomes 255 and 255 becomes 0); it is
    the third application that gives back the normalized image. *)
Theorem renormalizing_inverts img :
  ∃ out,
    Code2.preprocess (Some img) = Ok out
    ∧ Code2.preprocess (Some (Cv2.gray_as_bgr out)) = Ok (Cv2.invert out)
    ∧ Code2.preprocess (Some (Cv2.gray_as_bgr (Cv2.invert out))) = Ok out.
Proof.
  eexists. split; [apply preprocess_decoded|].
  unfold Cv2.gray_as_bgr, Cv2.invert.
  rewrite !preprocess_decoded, !map_map2. split; f_equal.
  - apply map_ext. intros row. apply map_ext. intros p.
    rewrite bgr2gray_neutral. apply binarize_twice.
  - apply map_ext. intros row. apply map_ext. intros p.
    rewrite bgr2gray_neutral, <- binarize_twice. apply binarize_thrice.
Qed.

End Preprocessing.

(** ** The pool and the aggregation *)

Section Orchestration.

Implicit Types (filenames : list string)
  (fields_list : list (string * value)) (response : gmap string value).

Lemma mapR_Forall2 {A B} (f : A → result B) (l : list A) (ys : list B) :
  mapR f l = Ok ys ↔ Forall2 (λ x y, f x = Ok y) l ys.
Proof.
  revert ys. induction l as [|x l IH]; intros ys; simpl.
  - split; [intros [= <-]; constructor | by intros ->%Forall2_nil_inv_l].
  - split.
    + destruct (f x) as [y|] eqn:Ex; [|done]. simpl.
      destruct (mapR f l) as [ys'|] eqn:El; [|done]. simpl.
      intros [= <-]. constructor; [done|]. by apply IH.
    + intros (y & ys' & Hy & Hl & ->)%Forall2_cons_inv_l.
      rewrite Hy. simpl. apply IH in Hl. rewrite Hl. done.
Qed.

(** The loop over the indices is the left-to-right insertion of the
    pairs. *)
Lemma aggregate_loop_store pre_f pre_r filenames fields_list response :
  length pre_f = length pre_r →
  length filenames = length fields_list →
  aggregate_loop (pre_f ++ filenames) (pre_r ++ fields_list)
    (seq (length pre_f) (length filenames)) response
  = Ok (store response (zip filenames fields_list)).
Proof.
  revert pre_f pre_r fields_list response.
  induction filenames as [|name filenames IH];
    intros pre_f pre_r [|r fields_list] response Hpre Hlen;
    simplify_eq/=; [done|].
  rewrite list_lookup_middle by done.
  rewrite (list_lookup_middle pre_r _ r (length pre_f)) by done.
  rewrite (cons_middle name), (cons_middle r), !app_assoc.
  replace (S (length pre_f)) with (length (pre_f ++ [name]))
    by (rewrite length_app; simpl; lia).
  apply IH; [rewrite !length_app; simpl; lia | done].
Qed.

Lemma aggregate_store filenames fields_list :
  length filenames = length fields_list →
  aggregate filenames fields_list
  = Ok (store ∅ (zip filenames fields_list)).
Proof.
  intros Hlen. unfold aggregate.
  by apply (aggregate_loop_store [] [] filenames fields_list ∅).
Qed.

Lemma store_dom response (pairs : list (string * (string * value))) :
  dom (store response pairs) = dom response ∪ list_to_set pairs.*1.
Proof.
  revert response. induction pairs as [|[name r] pairs IH];
    intros response; simpl.
  - set_solver.
  - unfold store in *. simpl. rewrite IH, dom_insert_L. set_solver.
Qed.

Lemma store_size response (pairs : list (string * (string * value))) :
  NoDup pairs.*1 →
  (∀ name, name ∈ pairs.*1 → response !! name = None) →
  size (store response pairs) = size response + length pairs.
Proof.
  revert response. induction pairs as [|[name r] pairs IH];
    intros response Hnd Hfresh; simpl in *; [lia|].
  apply NoDup_cons in Hnd as [Hname Hnd]. unfold store in *. simpl.
  rewrite IH; [|done|].
  - rewrite map_size_insert_None; [lia|]. apply Hfresh. left.
  - intros name' Hin. rewrite lookup_insert_ne; [|by intros ->].
    apply Hfresh. by right.
Qed.

(** Every value that is stored comes from a pair with that name, and
    every name of a pair has a value. *)
Lemma store_lookup response (pairs : list (string * (string * value)))
    name v :
  store response pairs !! name = Some v →
  ((name ∉ pairs.*1) ∧ response !! name = Some v)
  ∨ ∃ r, (name, r) ∈ pairs ∧ v = r.2.
Proof.
  revert response. induction pairs as [|[name' r] pairs IH];
    intros response H; simpl in *.
  - left. split; [apply not_elem_of_nil | done].
  - apply IH in H as [[Hout H]|(r' & Hin & ->)].
    + destruct (decide (name' = name)) as [->|Hne].
      * rewrite lookup_insert_eq in H. simplify_eq. right.
        exists r. split; [left | done].
      * rewrite lookup_insert_ne in H by done. left.
        split; [|done]. by apply not_elem_of_cons.
    + right. exists r'. split; [by right | done].
Qed.

Lemma zip_fst filenames fields_list :
  length filenames = length fields_list →
  (zip filenames fields_list).*1 = filenames.
Proof. intros H. apply fst_zip. lia. Qed.

(** The response built from the results of the pool: its keys are the
    file names and the entry of each name is the result computed for that
    name. *)
Lemma pool_aggregate
    (process_file : gmap string string → string → result (string * value))
    (fs : gmap string string) filenames fields_list :
  mapR (λ name, process_file fs (Os.join UPLOAD_FOLDER name)) filenames
  = Ok fields_list →
  length fields_list = length filenames
  ∧ ∃ response,
      aggregate filenames fields_list = Ok response
      ∧ response = store ∅ (zip filenames fields_list)
      ∧ dom response = list_to_set filenames
      ∧ ∀ i name, filenames !! i = Some name →
          ∃ r, fields_list !! i = Some r
               ∧ process_file fs (Os.join UPLOAD_FOLDER name) = Ok r
               ∧ response !! name = Some r.2.
Proof.
  intros Hpool. apply mapR_Forall2 in Hpool.
  pose proof (Forall2_length _ _ _ Hpool) as Hlen. split; [done|].
  eexists. split; [by apply aggregate_store|]. split; [done|].
  pose proof (zip_fst _ _ Hlen) as Hfst. split.
  - rewrite store_dom, Hfst, dom_empty_L. apply (left_id_L ∅ (∪)).
  - intros i name Hi.
    destruct (Forall2_lookup_l _ _ _ _ _ Hpool Hi) as (r & Hr & Hp).
    exists r. split_and!; [done..|].
    assert (is_Some (store ∅ (zip filenames fields_list) !! name))
      as [v Hv].
    { apply elem_of_dom. rewrite store_dom, Hfst.
      apply elem_of_union_r, elem_of_list_to_set.
      by eapply list_elem_of_lookup_2. }
    rewrite Hv. f_equal.
    apply store_lookup in Hv as [[_ Hv]|(r' & Hin & ->)];
      [by rewrite lookup_empty in Hv|].
    apply list_elem_of_lookup in Hin as [j Hj].
    apply lookup_zip_with_Some in Hj as (n' & r'' & [= <- <-] & Hn & Hr').
    destruct (Forall2_lookup_l _ _ _ _ _ Hpool Hn) as (r3 & Hr3 & Hp3).
    congruence.
Qed.



End Orchestration.

(** ** File names and paths *)

Section Paths.

Implicit Types (l : list ascii) (name : string).

Import Os (slash).

Lemma chars_app a b : Str.chars (a +:+ b) = Str.chars a ++ Str.chars b.
Proof. induction a as [|c a IH]; simpl; [done|]. by rewrite <- IH. Qed.

Lemma existsb_slash l :
  existsb (Char.eqb slash) l = false ↔ Forall (λ c, c ≠ slash) l.
Proof.
  induction l as [|c l IH]; simpl.
  - split; [constructor | done].
  - rewrite orb_false_iff, IH, Forall_cons.
    assert (Char.eqb slash c = false ↔ c ≠ slash) as ->; [|done].
    rewrite <- not_true_iff_false, Char_eqb_eq. naive_solver.
Qed.

(** What follows the last slash of [pre/l], when [l] has no slash. *)
Lemma after_last_slash pre l :
  Forall (λ c, c ≠ slash) l →
  Str.after_last slash (pre ++ slash :: l) = l.
Proof.
  intros Hl. induction pre as [|c pre IH]; simpl.
  - apply existsb_slash in Hl. rewrite Hl. reflexivity.
  - assert (existsb (Char.eqb slash) (pre ++ slash :: l) = true) as ->;
      [|done].
    rewrite existsb_app. apply orb_true_iff. right. reflexivity.
Qed.

(** The base name of [input/name] is [name], when [name] has no slash. *)
Lemma basename_join name :
  Forall (λ c, c ≠ slash) (Str.chars name) →
  Os.basename (Os.join UPLOAD_FOLDER name) = name.
Proof.
  intros Hn. unfold Os.join, Os.basename, Str.rsplit1_snd.
  assert (Str.startswith "/" name = false) as ->.
  { unfold Str.startswith. destruct (Str.chars name) as [|c l]; [done|].
    apply Forall_cons in Hn as [Hc _].
    apply not_true_iff_false. intros Heq%Char_eqb_eq. by apply Hc. }
  change (String.eqb UPLOAD_FOLDER "" || Str.endswith "/" UPLOAD_FOLDER)
    with false. cbv iota.
  rewrite !chars_app.
  change (Str.chars UPLOAD_FOLDER ++ Str.chars "/" ++ Str.chars name)
    with (Str.chars UPLOAD_FOLDER ++ slash :: Str.chars name).
  rewrite after_last_slash by done. apply of_chars_chars.
Qed.

Lemma hex_digit_no_slash n : Uuid.hex_digit n ≠ slash.
Proof.
  unfold Uuid.hex_digit. generalize (Z.to_nat n). intros i.
  do 16 (destruct i as [|i]; [discriminate|]). destruct i; discriminate.
Qed.

Lemma hex_no_slash k n : Forall (λ c, c ≠ slash) (Uuid.hex k n).
Proof.
  revert n. induction k as [|k IH]; intros n; simpl; [constructor|].
  apply Forall_app. split; [apply IH|].
  constructor; [apply hex_digit_no_slash | constructor].
Qed.

Lemma uuid_no_slash n : Forall (λ c, c ≠ slash) (Str.chars (Uuid.str n)).
Proof.
  unfold Uuid.str. rewrite chars_of_chars.
  pose proof (hex_no_slash 32 n) as H. revert H.
  generalize (Uuid.hex 32 n). intros h H.
  repeat first
    [ apply Forall_app; split
    | apply Forall_cons; split; [discriminate|]
    | apply Forall_take
    | apply Forall_drop
    | exact H ].
Qed.

(** The extensions that the applications accept. *)
Lemma extension_no_slash app filename :
  is_image_file_of app filename = true →
  Str.contains "." filename = true
  ∧ Forall (λ c, c ≠ slash)
      (Str.chars (Str.lower (Str.rsplit1_snd "." filename))).
Proof.
  destruct app as [patterns|]; simpl;
    unfold Code1.is_image_file, Code2.is_image_file;
    intros [Hdot Hext%bool_decide_eq_true]%andb_true_iff;
    (split; [done|]);
    repeat (apply elem_of_cons in Hext as [->|Hext];
            [repeat constructor; discriminate|]);
    by apply elem_of_nil in Hext.
Qed.

(** The names that the handler generates for accepted files are their
    own base names under the upload folder. *)
Lemma generated_name_basename app u filename :
  is_image_file_of app filename = true →
  Os.basename (Os.join UPLOAD_FOLDER (generate_unique_filename u filename))
  = generate_unique_filename u filename.
Proof.
  intros [Hdot Hext]%extension_no_slash. apply basename_join.
  unfold generate_unique_filename. rewrite Hdot, !chars_app.
  apply Forall_app. split; [apply uuid_no_slash|].
  apply Forall_app. split; [|done].
  repeat constructor; discriminate.
Qed.

End Paths.

(** ** The upload handler *)

Section Upload.

Implicit Types (app : application) (env : Env) (σ : State)
  (files : list FileStorage) (response : gmap string value).

Lemma upload_of_unfold app env :
  upload_of app env
  = upload_with (is_image_file_of app) (process_file_of app env) env.
Proof. by destruct app. Qed.

Lemma validate_rejected app files :
  Exists (rejected app) files →
  ∃ error, validate (is_image_file_of app) files = Some error.
Proof.
  induction 1 as [file files [Hf|Hf]|file files _ IH]; simpl.
  - rewrite Hf. simpl. eauto.
  - destruct (negb _); [eauto|].
    apply Z.ltb_lt in Hf. rewrite Hf. eauto.
  - destruct (negb _); [eauto|]. destruct (_ <? _)%Z; eauto.
Qed.

Lemma validate_accepted app files :
  validate (is_image_file_of app) files = None →
  Forall (λ file, is_image_file_of app (filename file) = true) files.
Proof.
  induction files as [|file files IH]; simpl; [constructor|].
  destruct (is_image_file_of app (filename file)) eqn:E; simpl; [|done].
  destruct (_ <? _)%Z; [done|]. intros H. constructor; auto.
Qed.

Lemma save_all_cons env σ file files :
  save_all env σ (file :: files)
  = let name :=
      generate_unique_filename (uuid4 env (uuids_drawn σ)) (filename file) in
    let σ' :=
      mkState (<[Os.join UPLOAD_FOLDER name := stream file]> (files_on_disk σ))
              (directories σ) (S (uuids_drawn σ)) in
    (name :: (save_all env σ' files).1, (save_all env σ' files).2).
Proof.
  cbv zeta. cbn [save_all]. by destruct (save_all env _ files).
Qed.

Lemma save_all_names env σ files :
  Forall2 (λ file name,
             ∃ u, name = generate_unique_filename u (filename file))
    files (save_all env σ files).1.
Proof.
  revert σ. induction files as [|file files IH]; intros σ.
  - constructor.
  - rewrite save_all_cons. cbv zeta. cbn [fst]. constructor; eauto.
Qed.

(** A rejected request changes nothing; an accepted one goes through
    the saving loop, the pool and the aggregation. *)
Lemma upload_with_fields is_image_file process_file env σ files
    response σ' :
  upload_with is_image_file process_file env σ files
  = (Ok (FieldsJson response), σ') →
  files ≠ []
  ∧ length files ≤ MAX_FILES
  ∧ validate is_image_file files = None
  ∧ σ' = (save_all env (ensure_dir UPLOAD_FOLDER σ) files).2
  ∧ ∃ fields_list,
      mapR (λ name, process_file (files_on_disk σ')
                      (Os.join UPLOAD_FOLDER name))
        (saved_names env σ files) = Ok fields_list
      ∧ aggregate (saved_names env σ files) fields_list = Ok response.
Proof.
  unfold upload_with, saved_names. destruct files as [|file files]; [done|].
  destruct (MAX_FILES <? _) eqn:Hmax; [done|].
  apply Nat.ltb_ge in Hmax.
  destruct (validate is_image_file (file :: files)); [done|].
  destruct (save_all env _ (file :: files)) as [filenames σ2] eqn:Es.
  intros [= H ->]. split_and!; try done. simpl.
  unfold run_pool in H. destruct (length filenames =? 0); [done|].
  destruct (mapR _ filenames) as [fields_list|]; [|done]. simpl in H.
  destruct (aggregate filenames fields_list) eqn:Ea; [|done].
  simpl in H. injection H as <-. eauto.
Qed.

Lemma Code2_process_file_basename rules env fs path name v :
  Code2.process_file_with rules env fs path = Ok (name, v) →
  name = Os.basename path.
Proof.
  unfold Code2.process_file_with.
  destruct (Code2.preprocess _); [|done]. simpl.
  destruct (image_to_string _ _); [|done]. simpl.
  destruct (Code2.extract_fields _ _ _); [|done]. simpl. congruence.
Qed.

Lemma Code1_process_file_basename rules env fs path name v :
  Code1.process_file rules env fs path = Ok (name, v) →
  name = Os.basename path.
Proof.
  unfold Code1.process_file.
  destruct (Code1.recognize _ _); [|done]. simpl.
  destruct (Code1.extract_fields _ _ _); [|done]. simpl. congruence.
Qed.

Lemma process_file_of_basename app env fs path name v :
  process_file_of app env fs path = Ok (name, v) → name = Os.basename path.
Proof.
  destruct app as [patterns|].
  - apply Code1_process_file_basename.
  - apply Code2_process_file_basename.
Qed.

(** C9: if a submitted file fails the extension check or the size check,
    the handler of either application answers with an error and leaves
    the state as it was: no directory is made, no file is written, no
    UUID is drawn, and [process_file] is not called (the answer is the
    same whatever [process_file] is). *)
Theorem validation_is_all_or_nothing app env σ files :
  Exists (rejected app) files →
  ∃ error,
    upload_of app env σ files = (Ok (ErrorJson error), σ)
    ∧ ∀ process_file,
        upload_with (is_image_file_of app) process_file env σ files
        = (Ok (ErrorJson error), σ).
Proof.
  intros Hbad. rewrite upload_of_unfold. unfold upload_with.
  destruct files as [|file files]; [by apply Exists_nil in Hbad|].
  destruct (MAX_FILES <? _); [eauto|].
  apply validate_rejected in Hbad as [error ->]. eauto.
Qed.

Lemma validation_is_all_or_nothing_witness :
  ∃ error,
    upload_of Code2_py (Demo.env Demo.page) Demo.σ0
      [mkFile "scan.png" 1000 "IMG1"; mkFile "notes.txt" 10 "IMG2"]
    = (Ok (ErrorJson error), Demo.σ0)
    ∧ ∀ process_file,
        upload_with (is_image_file_of Code2_py) process_file
          (Demo.env Demo.page) Demo.σ0
          [mkFile "scan.png" 1000 "IMG1"; mkFile "notes.txt" 10 "IMG2"]
        = (Ok (ErrorJson error), Demo.σ0).
Proof.
  apply (validation_is_all_or_nothing Code2_py (Demo.env Demo.page) Demo.σ0
           [mkFile "scan.png" 1000 "IMG1"; mkFile "notes.txt" 10 "IMG2"]).
  right. left. left. reflexivity.
Defined.

(** C10: [process_file] returns, as the identifier, the base name of the
    path it was given; and when the handler of either application answers
    with the fields, the entry of each saved name in the response is the
    outcome that [process_file] computed from the file saved under that
    name, whose identifier is that very name. *)
Theorem identifiers_are_consistent app env σ files response σ' :
  upload_of app env σ files = (Ok (FieldsJson response), σ') →
  (∀ fs path name v,
     process_file_of app env fs path = Ok (name, v) → name = Os.basename path)
  ∧ length (saved_names env σ files) = length files
  ∧ ∀ i name, saved_names env σ files !! i = Some name →
      Os.basename (Os.join UPLOAD_FOLDER name) = name
      ∧ ∃ v, process_file_of app env (files_on_disk σ')
               (Os.join UPLOAD_FOLDER name) = Ok (name, v)
             ∧ response !! name = Some v.
Proof.
  rewrite upload_of_unfold. intros H.
  apply upload_with_fields in H
    as (_ & _ & Hval & _ & fields_list & Hpool & Hagg).
  split; [apply process_file_of_basename|].
  pose proof (save_all_names env (ensure_dir UPLOAD_FOLDER σ) files)
    as Hnames.
  split; [symmetry; apply (Forall2_length _ _ _ Hnames)|].
  intros i name Hi.
  assert (Os.basename (Os.join UPLOAD_FOLDER name) = name) as Hbase.
  { destruct (Forall2_lookup_r _ _ _ _ _ Hnames Hi)
      as (file & Hfile & u & ->).
    apply (generated_name_basename app).
    apply validate_accepted in Hval.
    by apply (Forall_lookup_1 _ _ _ _ Hval Hfile). }
  split; [done|].
  apply pool_aggregate in Hpool as (_ & response' & Hagg' & _ & _ & Hlook).
  rewrite Hagg in Hagg'. injection Hagg' as <-.
  destruct (Hlook i name Hi) as ([name' v] & _ & Hp & Hv).
  exists v. split; [|done].
  rewrite Hp. apply process_file_of_basename in Hp. rewrite Hbase in Hp.
  by subst.
Qed.

Lemma identifiers_are_consistent_witness :
  (∀ fs path name v,
     process_file_of Code2_py (Demo.env Demo.page) fs path = Ok (name, v) →
     name = Os.basename path)
  ∧ length (saved_names (Demo.env Demo.page) Demo.σ0 Demo.batch)
    = length Demo.batch
  ∧ ∀ i name,
      saved_names (Demo.env Demo.page) Demo.σ0 Demo.batch !! i = Some name →
      Os.basename (Os.join UPLOAD_FOLDER name) = name
      ∧ ∃ v, process_file_of Code2_py (Demo.env Demo.page)
               (files_on_disk Demo.σ2) (Os.join UPLOAD_FOLDER name)
             = Ok (name, v)
             ∧ ({[Demo.name_a := Demo.found_on_page;
                  Demo.name_b := Demo.found_on_page]}
                : gmap string value) !! name = Some v.
Proof.
  apply (identifiers_are_consistent Code2_py (Demo.env Demo.page) Demo.σ0
           Demo.batch).
  vm_compute. reflexivity.
Defined.

(** The request of the witness, evaluated. *)
Example upload_batch :
  Code2.upload (Demo.env Demo.page) Demo.σ0 Demo.batch
  = (Ok (FieldsJson {[Demo.name_a := Demo.found_on_page;
                      Demo.name_b := Demo.found_on_page]}), Demo.σ2).
Proof. vm_compute. reflexivity. Qed.

(** A file that does not decode makes [process_file] raise. *)
Lemma undecodable_file_raises rules env fs path :
  imread env fs path = None →
  Code2.process_file_with rules env fs path = Raise cv2_error.
Proof. intros H. unfold Code2.process_file_with. by rewrite H. Qed.

(** If the handler of [Code2.py] answers with the fields, every saved
    file decoded: with one file that does not, there is no response. *)
Lemma fields_only_if_all_decode env σ files response σ' name :
  Code2.upload env σ files = (Ok (FieldsJson response), σ') →
  name ∈ saved_names env σ files →
  is_Some (imread env (files_on_disk σ') (Os.join UPLOAD_FOLDER name)).
Proof.
  intros H Hname. apply upload_with_fields in H
    as (_ & _ & _ & _ & fields_list & Hpool & _).
  apply pool_aggregate in Hpool as (_ & response' & _ & _ & _ & Hlook).
  apply list_elem_of_lookup in Hname as [i Hi].
  destruct (Hlook i name Hi) as (r & _ & Hp & _).
  destruct (imread env _ _) eqn:E; [eauto|].
  unfold Code2.process_file in Hp.
  by rewrite (undecodable_file_raises _ _ _ _ E) in Hp.
Qed.

(** C1 fails on the code: a request of two files of which the first does
    not decode ends in the exception [cv2.error], with no response at
    all, although the second file alone is answered with its fields. *)
Theorem corrupt_document_aborts_the_batch :
  (Code2.upload (Demo.env Demo.page) Demo.σ0 Demo.corrupt_batch).1
  = Raise cv2_error
  ∧ (Code2.upload (Demo.env Demo.page) Demo.σ0
       [mkFile "scan_b.png" 4096 "IMG-bb"]).1
    = Ok (FieldsJson
            {["00000000-0000-0000-0000-000000000000.png"
              := Demo.found_on_page]}).
Proof. split; vm_compute; reflexivity. Qed.

(** *** Rules are read when they match *)

Lemma search_groups pattern text ic m ng :
  Re.search pattern text ic = Ok (Some m) →
  Re.groups pattern = Some ng → Re.m_groups m = ng.
Proof.
  unfold Re.search, Re.groups.
  destruct (Re.compile pattern) as [[r ng']|]; [|done]. simpl.
  intros [= Hs] [= <-].
  pose proof (search_from_leftmost ic r ng' (Str.chars text) 0
                (Str.chars text)) as H.
  rewrite Hs in H. by destruct H as (j & rest & _ & _ & _ & _ & Hg & _).
Qed.




End Upload.

(** ** File names: extensions and generated names *)

Section FileNames.

Implicit Types (l : list ascii) (stem ext filename : string).

Lemma existsb_eqb_false c l :
  existsb (Char.eqb c) l = false ↔ Forall (λ x, x ≠ c) l.
Proof.
  induction l as [|x l IH]; simpl.
  - split; [constructor | done].
  - rewrite orb_false_iff, IH, Forall_cons.
    assert (Char.eqb c x = false ↔ x ≠ c) as ->; [|done].
    rewrite <- not_true_iff_false, Char_eqb_eq. naive_solver.
Qed.

Lemma Char_eqb_refl c : Char.eqb c c = true.
Proof. by apply Char_eqb_eq. Qed.

(** What follows the last [c] of [pre c l], when [l] has no [c]. *)
Lemma after_last_app c pre l :
  existsb (Char.eqb c) l = false →
  Str.after_last c (pre ++ c :: l) = l.
Proof.
  intros Hl. induction pre as [|x pre IH]; simpl.
  - by rewrite Hl, Char_eqb_refl.
  - assert (existsb (Char.eqb c) (pre ++ c :: l) = true) as ->; [|done].
    rewrite existsb_app. simpl. rewrite Char_eqb_refl. apply orb_true_r.
Qed.

(** What [after_last] returns has no [c], when [c] occurs in the list. *)
Lemma after_last_free c l :
  existsb (Char.eqb c) l = true →
  existsb (Char.eqb c) (Str.after_last c l) = false.
Proof.
  induction l as [|x l IH]; simpl; [done|].
  destruct (existsb (Char.eqb c) l) eqn:El; [auto|].
  rewrite orb_false_r. intros ->. done.
Qed.

Lemma contains_app c a b :
  Str.contains c (a +:+ b) = Str.contains c a || Str.contains c b.
Proof. unfold Str.contains. by rewrite chars_app, existsb_app. Qed.

Lemma rsplit1_snd_app c stem ext :
  Str.contains c ext = false →
  Str.rsplit1_snd c (stem +:+ String c ext) = ext.
Proof.
  intros H. unfold Str.rsplit1_snd. rewrite chars_app.
  change (Str.chars (String c ext)) with (c :: Str.chars ext).
  rewrite after_last_app by done. apply of_chars_chars.
Qed.

(** X1: a file name [stem.ext] whose [ext] has no dot is an image file
    name exactly when [ext], in lower case, is one of the extensions of
    the application: the last extension decides, whatever its case. *)
Theorem is_image_file_by_last_extension stem ext :
  Str.contains "." ext = false →
  Code2.is_image_file (stem +:+ "." +:+ ext)
  = bool_decide (Str.lower ext ∈ ["png"; "jpg"; "jpeg"; "gif"; "pdf"])
  ∧ Code1.is_image_file (stem +:+ "." +:+ ext)
    = bool_decide (Str.lower ext ∈ ["png"; "jpg"; "jpeg"; "gif"]).
Proof.
  intros H. unfold Code2.is_image_file, Code1.is_image_file.
  change ("." +:+ ext) with (String "." ext).
  rewrite rsplit1_snd_app by done.
  rewrite contains_app.
  assert (Str.contains "." (String "." ext) = true) as -> by reflexivity.
  by rewrite orb_true_r.
Qed.

Lemma is_image_file_by_last_extension_witness :
  Code2.is_image_file ("scan.2024" +:+ "." +:+ "JPeG")
  = bool_decide (Str.lower "JPeG" ∈ ["png"; "jpg"; "jpeg"; "gif"; "pdf"])
  ∧ Code1.is_image_file ("scan.2024" +:+ "." +:+ "JPeG")
    = bool_decide (Str.lower "JPeG" ∈ ["png"; "jpg"; "jpeg"; "gif"]).
Proof.
  apply (is_image_file_by_last_extension "scan.2024" "JPeG"). reflexivity.
Defined.

(** X2: [Code2.py] accepts the file names that [Code1.py] accepts and,
    besides, those whose last extension is pdf in any case; and neither
    accepts a name without a dot. *)
Theorem Code2_accepts_pdf_besides filename :
  Code2.is_image_file filename
  = Code1.is_image_file filename
    || (Str.contains "." filename
        && String.eqb (Str.lower (Str.rsplit1_snd "." filename)) "pdf").
Proof.
  unfold Code2.is_image_file, Code1.is_image_file.
  destruct (Str.contains "." filename); simpl; [|done].
  generalize (Str.lower (Str.rsplit1_snd "." filename)). intros e.
  destruct (String.eqb_spec e "pdf") as [->|Hne]; [reflexivity|].
  rewrite orb_false_r. apply bool_decide_ext.
  rewrite !elem_of_cons, !elem_of_nil. naive_solver.
Qed.

(** The extension that the handler keeps for an accepted file. *)
Lemma accepted_extension app filename :
  is_image_file_of app filename = true →
  Str.contains "." filename = true
  ∧ Str.lower (Str.rsplit1_snd "." filename)
    ∈ ["png"; "jpg"; "jpeg"; "gif"; "pdf"].
Proof.
  destruct app as [patterns|]; simpl;
    unfold Code1.is_image_file, Code2.is_image_file;
    intros [Hdot Hext%bool_decide_eq_true]%andb_true_iff;
    (split; [done|]); [|done].
  revert Hext. rewrite !elem_of_cons. naive_solver.
Qed.

(** X3: the name that the handler generates for an accepted file is again
    accepted by the same application: its extension is the extension of the
    uploaded name, in lower case. *)
Theorem generated_name_is_accepted app u filename :
  is_image_file_of app filename = true →
  Str.rsplit1_snd "." (generate_unique_filename u filename)
  = Str.lower (Str.rsplit1_snd "." filename)
  ∧ is_image_file_of app (generate_unique_filename u filename) = true.
Proof.
  intros Hacc. pose proof (accepted_extension app filename Hacc) as [Hdot Hext].
  unfold generate_unique_filename. rewrite Hdot.
  set (ext := Str.lower (Str.rsplit1_snd "." filename)) in *.
  assert (Str.contains "." ext = false ∧ Str.lower ext = ext) as [Hfree Hlow].
  { revert Hext. rewrite !elem_of_cons, elem_of_nil.
    intros [->|[->|[->|[->|[->|[]]]]]]; split; reflexivity. }
  change ("." +:+ ext) with (String "." ext).
  assert (Str.rsplit1_snd "." (Uuid.str u +:+ String "." ext) = ext) as Hsplit
    by (by apply rsplit1_snd_app).
  split; [done|].
  assert (Str.contains "." (Uuid.str u +:+ String "." ext) = true) as Hc.
  { rewrite contains_app.
    assert (Str.contains "." (String "." ext) = true) as -> by reflexivity.
    apply orb_true_r. }
  destruct app as [patterns|]; simpl in *;
    unfold Code1.is_image_file, Code2.is_image_file in *;
    rewrite Hc, Hsplit, Hlow; simpl;
    apply andb_true_iff in Hacc as [_ Hacc]; exact Hacc.
Qed.

Lemma generated_name_is_accepted_witness :
  Str.rsplit1_snd "." (generate_unique_filename 77 "Scan.Final.JPG")
  = Str.lower (Str.rsplit1_snd "." "Scan.Final.JPG")
  ∧ is_image_file_of Code2_py (generate_unique_filename 77 "Scan.Final.JPG")
    = true.
Proof.
  apply (generated_name_is_accepted Code2_py 77 "Scan.Final.JPG").
  reflexivity.
Defined.

End FileNames.

(** ** UUIDs: distinct draws give distinct names *)

Section Names.

Implicit Types (u : Z) (k : nat) (l : list ascii).

Lemma length_hex k u : length (Uuid.hex k u) = k.
Proof.
  revert u. induction k as [|k IH]; intros u; simpl; [done|].
  rewrite length_app, IH. simpl. lia.
Qed.

Lemma hex_digit_inj a b :
  (0 <= a < 16)%Z → (0 <= b < 16)%Z →
  Uuid.hex_digit a = Uuid.hex_digit b → a = b.
Proof.
  intros Ha Hb. unfold Uuid.hex_digit.
  assert (Z.to_nat a < 16 ∧ Z.to_nat b < 16) as [Hi Hj] by lia.
  intros H. apply Z2Nat.inj; [lia..|].
  revert H Hi Hj. generalize (Z.to_nat a) (Z.to_nat b). intros i j H Hi Hj.
  do 16 (destruct i as [|i]; [do 16 (destruct j as [|j]; [done|]); lia|]).
  lia.
Qed.

(** The [k] digits determine the value modulo [16^k]. *)
Lemma hex_inj k a b :
  Uuid.hex k a = Uuid.hex k b → (a mod 16 ^ Z.of_nat k = b mod 16 ^ Z.of_nat k)%Z.
Proof.
  revert a b. induction k as [|k IH]; intros a b H.
  - simpl. by rewrite !Z.mod_1_r.
  - simpl in H. apply app_inj_tail in H as [Hhi Hlo].
    apply IH in Hhi. apply hex_digit_inj in Hlo;
      [|apply Z.mod_pos_bound; lia..].
    rewrite Nat2Z.inj_succ, Z.pow_succ_r by lia.
    rewrite !Z.rem_mul_r by lia. by rewrite Hhi, Hlo.
Qed.

Lemma dashed_inj h1 h2 :
  length h1 = 32 → length h2 = 32 → dashed h1 = dashed h2 → h1 = h2.
Proof.
  intros H1 H2.
  do 32 (destruct h1 as [|? h1]; [discriminate|]).
  do 32 (destruct h2 as [|? h2]; [discriminate|]).
  destruct h1, h2; try discriminate. unfold dashed. simpl.
  intros H. by simplify_eq.
Qed.

Lemma length_dashed h : length h = 32 → length (dashed h) = 36.
Proof.
  intros H. do 32 (destruct h as [|? h]; [discriminate|]).
  by destruct h.
Qed.

Lemma length_uuid u : length (Str.chars (Uuid.str u)) = 36.
Proof.
  unfold Uuid.str. rewrite chars_of_chars.
  apply (length_dashed (Uuid.hex 32 u)), length_hex.
Qed.

(** The text of a UUID determines its 128 bits. *)
Lemma uuid_str_inj u1 u2 :
  Uuid.str u1 = Uuid.str u2 → bits128 u1 = bits128 u2.
Proof.
  intros H. apply (f_equal Str.chars) in H. unfold Uuid.str in H.
  rewrite !chars_of_chars in H.
  apply (dashed_inj (Uuid.hex 32 u1) (Uuid.hex 32 u2)) in H;
    [|apply length_hex..].
  apply hex_inj in H. exact H.
Qed.

Lemma generate_unique_filename_inj u1 u2 f1 f2 :
  generate_unique_filename u1 f1 = generate_unique_filename u2 f2 →
  bits128 u1 = bits128 u2.
Proof.
  unfold generate_unique_filename. intros H.
  apply (f_equal Str.chars) in H. rewrite !chars_app in H.
  apply app_inj_1 in H as [H _]; [|by rewrite !length_uuid].
  apply uuid_str_inj. rewrite <- (of_chars_chars (Uuid.str u1)), H.
  apply of_chars_chars.
Qed.

(** The saving loop draws the UUIDs in order. *)
Lemma save_all_lookup env σ files i file :
  files !! i = Some file →
  (save_all env σ files).1 !! i
  = Some (generate_unique_filename (uuid4 env (uuids_drawn σ + i))
            (filename file)).
Proof.
  revert σ i. induction files as [|f files IH]; intros σ i Hi; [done|].
  rewrite save_all_cons. cbv zeta. cbn [fst].
  destruct i as [|i]; cbn [lookup list_lookup] in Hi |- *.
  - injection Hi as ->. by rewrite Nat.add_0_r.
  - rewrite (IH _ i Hi). cbn [uuids_drawn]. do 3 f_equal. lia.
Qed.

Lemma ensure_dir_uuids d σ : uuids_drawn (ensure_dir d σ) = uuids_drawn σ.
Proof. unfold ensure_dir. by case_decide. Qed.

(** X4: if the UUIDs that the handler draws for a request differ in their
    128 bits, the names under which it saves the files are pairwise
    distinct. *)
Theorem saved_names_are_distinct env σ files :
  (∀ i j, i < j < length files →
     bits128 (uuid4 env (uuids_drawn σ + i))
     ≠ bits128 (uuid4 env (uuids_drawn σ + j))) →
  NoDup (saved_names env σ files).
Proof.
  intros Hu. unfold saved_names.
  pose proof (save_all_names env (ensure_dir UPLOAD_FOLDER σ) files) as Hn.
  pose proof (Forall2_length _ _ _ Hn) as Hlen.
  assert (∀ i name, (save_all env (ensure_dir UPLOAD_FOLDER σ) files).1 !! i
                    = Some name →
            ∃ f, i < length files
                 ∧ name = generate_unique_filename
                            (uuid4 env (uuids_drawn σ + i)) f) as Hget.
  { intros i name Hi.
    destruct (Forall2_lookup_r _ _ _ _ _ Hn Hi) as (file & Hf & _).
    rewrite (save_all_lookup _ _ _ _ _ Hf), ensure_dir_uuids in Hi.
    injection Hi as <-. apply lookup_lt_Some in Hf. eauto. }
  apply NoDup_alt. intros i j name Hi Hj.
  apply Hget in Hi as (f1 & Hi & ->). apply Hget in Hj as (f2 & Hj & E).
  apply generate_unique_filename_inj in E.
  destruct (Nat.lt_trichotomy i j) as [Hlt|[->|Hlt]]; [|done|].
  - exfalso. by apply (Hu i j).
  - exfalso. by apply (Hu j i).
Qed.

Lemma saved_names_are_distinct_witness :
  NoDup (saved_names (Demo.env Demo.page) Demo.σ0 Demo.batch).
Proof.
  apply (saved_names_are_distinct (Demo.env Demo.page) Demo.σ0 Demo.batch).
  intros i j Hij. simpl in Hij.
  assert (i = 0 ∧ j = 1) as [-> ->] by lia. vm_compute. discriminate.
Defined.

End Names.

(** ** The state that the handler leaves *)

Section Saving.

Implicit Types (env : Env) (σ : State) (files : list FileStorage)
  (name path : string).

Lemma generated_name_not_absolute u filename :
  Str.startswith "/" (generate_unique_filename u filename) = false.
Proof.
  unfold Str.startswith, generate_unique_filename. rewrite chars_app.
  pose proof (uuid_no_slash u) as Hns. pose proof (length_uuid u) as Hlen.
  destruct (Str.chars (Uuid.str u)) as [|c l]; [done|].
  apply Forall_cons in Hns as [Hc _]. simpl.
  apply not_true_iff_false. intros Heq%Char_eqb_eq. by apply Hc.
Qed.

(** The path of a generated name is the name under the upload folder, so
    that distinct names have distinct paths. *)
Lemma join_generated u filename :
  Os.join UPLOAD_FOLDER (generate_unique_filename u filename)
  = "input/" +:+ generate_unique_filename u filename.
Proof. unfold Os.join. by rewrite generated_name_not_absolute. Qed.

Lemma saved_paths env σ files :
  Os.join UPLOAD_FOLDER <$> (save_all env σ files).1
  = String.append "input/" <$> (save_all env σ files).1.
Proof.
  pose proof (save_all_names env σ files) as Hn.
  induction Hn as [|file name files names (u & ->) _ IH]; [done|].
  cbn [fmap list_fmap]. by rewrite IH, join_generated.
Qed.

Lemma saved_paths_NoDup env σ files :
  NoDup (save_all env σ files).1 →
  NoDup (Os.join UPLOAD_FOLDER <$> (save_all env σ files).1).
Proof.
  intros H. rewrite saved_paths. apply NoDup_fmap_2; [|done].
  intros a b Hab. by injection Hab.
Qed.

(** What the saving loop does to the state. *)
Lemma save_all_state env σ files :
  directories (save_all env σ files).2 = directories σ
  ∧ uuids_drawn (save_all env σ files).2 = uuids_drawn σ + length files
  ∧ (∀ path, path ∉ Os.join UPLOAD_FOLDER <$> (save_all env σ files).1 →
       files_on_disk (save_all env σ files).2 !! path
       = files_on_disk σ !! path)
  ∧ (NoDup (Os.join UPLOAD_FOLDER <$> (save_all env σ files).1) →
     ∀ i name file,
       (save_all env σ files).1 !! i = Some name → files !! i = Some file →
       files_on_disk (save_all env σ files).2 !! Os.join UPLOAD_FOLDER name
       = Some (stream file)).
Proof.
  revert σ. induction files as [|f files IH]; intros σ.
  - cbn [save_all fst snd length]. split_and!; try done; lia.
  - rewrite save_all_cons. cbv zeta. cbn [fst snd].
    match goal with
    | |- context [save_all env ?σ1 files] =>
        destruct (IH σ1) as (Hd & Hu & Hout & Hin)
    end.
    cbn [directories uuids_drawn files_on_disk] in *.
    split_and!.
    + done.
    + rewrite Hu. cbn [length]. lia.
    + intros path Hp. rewrite fmap_cons in Hp.
      apply not_elem_of_cons in Hp as [Hne Hp].
      rewrite Hout by done. by apply lookup_insert_ne.
    + intros Hnd i name file Hi Hf. rewrite fmap_cons in Hnd.
      apply NoDup_cons in Hnd as [Hfresh Hnd].
      destruct i as [|i]; cbn [lookup list_lookup] in Hi, Hf.
      * injection Hi as <-. injection Hf as <-.
        rewrite Hout by done. apply lookup_insert_eq.
      * by apply (Hin Hnd i).
Qed.

Lemma ensure_dir_state d σ :
  files_on_disk (ensure_dir d σ) = files_on_disk σ
  ∧ directories (ensure_dir d σ) = {[d]} ∪ directories σ
  ∧ uuids_drawn (ensure_dir d σ) = uuids_drawn σ.
Proof.
  unfold ensure_dir. case_decide; simpl; split_and!; try done. set_solver.
Qed.

(** How the handler ends: with an error and the state it was given, or in
    the state after the saving loop. *)
Lemma upload_with_cases is_image_file process_file env σ files r σ' :
  upload_with is_image_file process_file env σ files = (r, σ') →
  (σ' = σ ∧ ∃ error, r = Ok (ErrorJson error))
  ∨ (files ≠ [] ∧ length files ≤ MAX_FILES
     ∧ validate is_image_file files = None
     ∧ σ' = (save_all env (ensure_dir UPLOAD_FOLDER σ) files).2
     ∧ r = (fields_list ← run_pool process_file (files_on_disk σ')
                             (saved_names env σ files);
            response ← aggregate (saved_names env σ files) fields_list;
            Ok (FieldsJson response))).
Proof.
  unfold upload_with, saved_names. destruct files as [|file files].
  { intros [= <- <-]. left. eauto. }
  destruct (MAX_FILES <? _) eqn:Hmax. { intros [= <- <-]. left. eauto. }
  apply Nat.ltb_ge in Hmax.
  destruct (validate is_image_file (file :: files)).
  { intros [= <- <-]. left. eauto. }
  destruct (save_all env _ (file :: files)) as [filenames σ2] eqn:Es.
  intros [= <- <-]. right. split_and!; done.
Qed.



End Saving.

(** ** The answers of the handler *)

Section Answers.

Implicit Types (env : Env) (σ : State) (files : list FileStorage)
  (filenames : list string) (fields_list : list (string * value)).

(** The validation loop reports the first file that fails a check, and the
    extension check comes before the size check. *)
Lemma validate_first_rejected is_image_file files error :
  validate is_image_file files = Some error ↔
  ∃ i file,
    files !! i = Some file
    ∧ ¬ accepted is_image_file file
    ∧ (∀ j f, j < i → files !! j = Some f → accepted is_image_file f)
    ∧ error = rejection is_image_file file.
Proof.
  unfold accepted, rejection. revert error.
  induction files as [|f files IH]; intros error; simpl.
  - split; [done|]. by intros (i & file & Hi & _).
  - destruct (is_image_file (filename f)) eqn:Ei; simpl.
    + destruct (MAX_CONTENT_LENGTH <? content_length f)%Z eqn:Es.
      * apply Z.ltb_lt in Es. split.
        -- intros [= <-]. exists 0, f. rewrite Ei. split_and!; try done.
           ++ intros [_ ?]. lia.
           ++ intros j f' Hj. lia.
        -- intros (i & file & Hi & Hrej & Hbefore & ->).
           destruct i as [|i]; simpl in Hi.
           ++ injection Hi as <-. by rewrite Ei.
           ++ destruct (Hbefore 0 f) as [_ ?]; [lia|done|lia].
      * apply Z.ltb_ge in Es. rewrite IH. split.
        -- intros (i & file & Hi & Hrej & Hbefore & ->).
           exists (S i), file. split_and!; try done.
           intros [|j] f' Hj Hf'; simpl in Hf'.
           ++ by injection Hf' as <-.
           ++ apply (Hbefore j); [lia|done].
        -- intros (i & file & Hi & Hrej & Hbefore & ->).
           destruct i as [|i]; simpl in Hi.
           ++ injection Hi as <-. destruct Hrej. done.
           ++ exists i, file. split_and!; try done.
              intros j f' Hj Hf'. apply (Hbefore (S j)); [lia|done].
    + split.
      * intros [= <-]. exists 0, f. rewrite Ei. split_and!; try done.
        -- by intros [? _].
        -- intros j f' Hj. lia.
      * intros (i & file & Hi & Hrej & Hbefore & ->).
        destruct i as [|i]; simpl in Hi.
        -- injection Hi as <-. by rewrite Ei.
        -- destruct (Hbefore 0 f) as [? _]; [lia|done|congruence].
Qed.



Lemma validate_None_accepted is_image_file files :
  validate is_image_file files = None ↔ Forall (accepted is_image_file) files.
Proof.
  unfold accepted. induction files as [|f files IH]; simpl.
  - split; [constructor | done].
  - rewrite Forall_cons. destruct (is_image_file (filename f)); simpl.
    + destruct (MAX_CONTENT_LENGTH <? content_length f)%Z eqn:Es.
      * apply Z.ltb_lt in Es. split; [done|]. intros [[_ ?] _]. lia.
      * apply Z.ltb_ge in Es. rewrite IH. naive_solver.
    + split; [done|]. by intros [[? _] _].
Qed.

Lemma not_accepted_rejected app file :
  ¬ accepted (is_image_file_of app) file ↔ rejected app file.
Proof.
  unfold accepted, rejected.
  destruct (is_image_file_of app (filename file)); split.
  - intros H. right. lia.
  - intros [?|?] [_ ?]; [done|lia].
  - by left.
  - by intros _ [? _].
Qed.


End Answers.

(** ** The pool and the aggregation, beyond distinct names *)

Section Pool.

Implicit Types (env : Env) (σ : State) (files : list FileStorage)
  (filenames : list string) (fields_list : list (string * value))
  (response : gmap string value).

(** The first exception in the order of the list is the one raised. *)
Lemma mapR_first_Raise {A B} (f : A → result B) (l : list A) i x e :
  l !! i = Some x → f x = Raise e →
  (∀ j y, j < i → l !! j = Some y → ∃ b, f y = Ok b) →
  mapR f l = Raise e.
Proof.
  revert i. induction l as [|a l IH]; intros i Hi He Hbefore; [done|].
  destruct i as [|i]; simpl in Hi |- *.
  - injection Hi as ->. by rewrite He.
  - destruct (Hbefore 0 a) as [b ->]; [lia|done|]. simpl.
    rewrite (IH i); [done..|].
    intros j y Hj Hy. apply (Hbefore (S j)); [lia|done].
Qed.

(** X8: when the files of a request pass the checks and [process_file]
    raises for one of the saved files but returns for those saved before
    it, the exception of that file leaves the handler; the files of the
    request stay saved and no response is built. *)
Theorem upload_raises_first_failure is_image_file
    (process_file : gmap string string → string → result (string * value))
    env σ files i name e :
  files ≠ [] →
  length files ≤ MAX_FILES →
  validate is_image_file files = None →
  saved_names env σ files !! i = Some name →
  process_file (files_on_disk (save_all env (ensure_dir UPLOAD_FOLDER σ) files).2)
    (Os.join UPLOAD_FOLDER name) = Raise e →
  (∀ j n, j < i → saved_names env σ files !! j = Some n →
     ∃ r, process_file
            (files_on_disk (save_all env (ensure_dir UPLOAD_FOLDER σ) files).2)
            (Os.join UPLOAD_FOLDER n) = Ok r) →
  upload_with is_image_file process_file env σ files
  = (Raise e, (save_all env (ensure_dir UPLOAD_FOLDER σ) files).2).
Proof.
  intros Hne Hmax Hval Hi He Hbefore. unfold upload_with, saved_names in *.
  destruct files as [|f files]; [done|].
  apply Nat.ltb_ge in Hmax. rewrite Hmax, Hval.
  destruct (save_all env _ (f :: files)) as [filenames σ2] eqn:Es.
  cbn [fst snd] in *. f_equal. unfold run_pool.
  assert ((length filenames =? 0) = false) as ->.
  { apply Nat.eqb_neq. apply lookup_lt_Some in Hi. lia. }
  by rewrite (mapR_first_Raise _ _ i name e Hi He Hbefore).
Qed.

Lemma upload_raises_first_failure_witness :
  upload_with Code2.is_image_file (Code2.process_file (Demo.env Demo.page))
    (Demo.env Demo.page) Demo.σ0 Demo.corrupt_batch
  = (Raise cv2_error,
     (save_all (Demo.env Demo.page) (ensure_dir UPLOAD_FOLDER Demo.σ0)
        Demo.corrupt_batch).2).
Proof.
  apply (upload_raises_first_failure Code2.is_image_file
           (Code2.process_file (Demo.env Demo.page)) (Demo.env Demo.page)
           Demo.σ0 Demo.corrupt_batch 0
           "00000000-0000-0000-0000-000000000000.png").
  - discriminate.
  - vm_compute. lia.
  - reflexivity.
  - vm_compute. reflexivity.
  - vm_compute. reflexivity.
  - intros j n Hj. lia.
Defined.

(** The loop over the indices, for lists of any lengths. *)
Lemma aggregate_loop_any pre_f pre_r filenames fields_list response :
  length pre_f = length pre_r →
  aggregate_loop (pre_f ++ filenames) (pre_r ++ fields_list)
    (seq (length pre_f) (length filenames)) response
  = if length filenames <=? length fields_list
    then Ok (store response (zip filenames fields_list))
    else Raise IndexError.
Proof.
  revert pre_f pre_r fields_list response.
  induction filenames as [|name filenames IH];
    intros pre_f pre_r fields_list response Hpre; [done|].
  cbn [length seq aggregate_loop].
  rewrite list_lookup_middle by done.
  destruct fields_list as [|r fields_list].
  - rewrite app_nil_r, (lookup_ge_None_2 pre_r) by lia. done.
  - rewrite (list_lookup_middle pre_r _ r (length pre_f)) by done.
    rewrite (cons_middle name), (cons_middle r), !app_assoc.
    replace (S (length pre_f)) with (length (pre_f ++ [name]))
      by (rewrite length_app; simpl; lia).
    rewrite IH by (rewrite !length_app; simpl; lia). done.
Qed.

Lemma store_notin response (pairs : list (string * (string * value))) name :
  name ∉ pairs.*1 → store response pairs !! name = response !! name.
Proof.
  revert response. induction pairs as [|[n r] pairs IH];
    intros response Hn; [done|].
  rewrite fmap_cons in Hn. apply not_elem_of_cons in Hn as [Hne Hn].
  unfold store in *. simpl. rewrite IH by done.
  by apply lookup_insert_ne.
Qed.

(** The entry of a name is the result paired with its last occurrence. *)
Lemma store_last response (pairs : list (string * (string * value)))
    i name r :
  pairs !! i = Some (name, r) →
  (∀ j p, i < j → pairs !! j = Some p → p.1 ≠ name) →
  store response pairs !! name = Some r.2.
Proof.
  revert response i. induction pairs as [|[n r'] pairs IH];
    intros response i Hi Hlast; [done|].
  destruct i as [|i]; simpl in Hi.
  - injection Hi as -> ->. unfold store. simpl.
    fold (store (<[name := r.2]> response) pairs).
    rewrite store_notin; [apply lookup_insert_eq|].
    intros ([n p] & -> & Hin)%list_elem_of_fmap.
    apply list_elem_of_lookup in Hin as [j Hj].
    by apply (Hlast (S j) (n, p)); [lia|..].
  - unfold store. simpl. apply (IH _ i Hi).
    intros j p Hj Hp. apply (Hlast (S j)); [lia|done].
Qed.

(** X9: with at least one result per name, whether or not the names are
    distinct, the aggregation loop returns a response whose keys are the
    names and in which each name has the outcome at its last occurrence:
    a later file with the name of an earlier one replaces its entry. *)
Theorem aggregate_last_write_wins filenames fields_list :
  length filenames ≤ length fields_list →
  ∃ response,
    aggregate filenames fields_list = Ok response
    ∧ dom response = list_to_set filenames
    ∧ size response = size (list_to_set filenames : gset string)
    ∧ ∀ i name r,
        filenames !! i = Some name → fields_list !! i = Some r →
        (∀ j, i < j → filenames !! j ≠ Some name) →
        response !! name = Some r.2.
Proof.
  intros Hlen. unfold aggregate.
  rewrite (aggregate_loop_any [] [] filenames fields_list ∅ eq_refl).
  apply Nat.leb_le in Hlen as Hb. rewrite Hb. eexists. split; [done|].
  assert ((zip filenames fields_list).*1 = filenames) as Hfst
    by (by apply fst_zip).
  assert (dom (store ∅ (zip filenames fields_list))
          = list_to_set filenames) as Hdom.
  { rewrite store_dom, Hfst, dom_empty_L. apply (left_id_L ∅ (∪)). }
  split_and!; [done| |].
  - by rewrite <- Hdom, size_dom.
  - intros i name r Hi Hr Hlast. apply (store_last _ _ i).
    + apply lookup_zip_with_Some. eauto.
    + intros j [n p] Hj Hp. simpl. intros ->.
      apply lookup_zip_with_Some in Hp as (n' & p' & [= <- <-] & Hn & _).
      by apply (Hlast j).
Qed.

Lemma aggregate_last_write_wins_witness :
  ∃ response,
    aggregate ["a.png"; "b.png"; "a.png"]
      [("a.png", VStr "first"); ("b.png", VStr "second");
       ("a.png", VStr "third")] = Ok response
    ∧ dom response = list_to_set ["a.png"; "b.png"; "a.png"]
    ∧ size response
      = size (list_to_set ["a.png"; "b.png"; "a.png"] : gset string)
    ∧ ∀ i name r,
        ["a.png"; "b.png"; "a.png"] !! i = Some name →
        [("a.png", VStr "first"); ("b.png", VStr "second");
         ("a.png", VStr "third")] !! i = Some r →
        (∀ j, i < j → ["a.png"; "b.png"; "a.png"] !! j ≠ Some name) →
        response !! name = Some r.2.
Proof.
  apply (aggregate_last_write_wins ["a.png"; "b.png"; "a.png"]).
  simpl. lia.
Defined.

(** X10: with fewer results than names the aggregation loop raises
    [IndexError]. *)
Theorem aggregate_needs_a_result_per_name filenames fields_list :
  length fields_list < length filenames →
  aggregate filenames fields_list = Raise IndexError.
Proof.
  intros Hlen. unfold aggregate.
  rewrite (aggregate_loop_any [] [] filenames fields_list ∅ eq_refl).
  apply Nat.leb_gt in Hlen. by rewrite Hlen.
Qed.

Lemma aggregate_needs_a_result_per_name_witness :
  aggregate ["a.png"; "b.png"] [("a.png", VStr "only")] = Raise IndexError.
Proof.
  apply (aggregate_needs_a_result_per_name ["a.png"; "b.png"]). simpl. lia.
Defined.

End Pool.

(** ** What [process_file] returns and raises *)

Section Processing.

Implicit Types (env : Env) (σ : State) (files : list FileStorage)
  (fs : gmap string string) (path : string)
  (rules : list (string * string)).

(** The outcome is the string of the unrecognized image or a dictionary
    that is not empty. *)
Lemma outcome_cases (fields : gmap string string) :
  outcome fields = VStr "Not an Invoice Image"
  ∨ (fields ≠ ∅ ∧ outcome fields = VDict fields).
Proof. unfold outcome. case_decide; auto. Qed.

(** The names of the fields are names of rules. *)
Lemma extract_loop_dom ic post e rules text fields0 fields :
  extract_loop ic post e rules text fields0 = Ok fields →
  dom fields ⊆ dom fields0 ∪ list_to_set rules.*1.
Proof.
  revert fields0. induction rules as [|[k p] rules IH];
    intros fields0 H; simpl in *.
  - injection H as <-. set_solver.
  - destruct (Re.search p text ic) as [[m|]|]; simpl in H; [| |done].
    + destruct (Re.group m 1) as [[g|]|]; simpl in H; [|done..].
      apply IH in H. rewrite dom_insert in H. set_solver.
    + apply IH in H. set_solver.
Qed.

Lemma Code2_process_file_with_cases rules env fs path :
  Forall (λ rule, Re.usable rule.2 = true) rules →
  match imread env fs path with
  | None => Code2.process_file_with rules env fs path = Raise cv2_error
  | Some img =>
      match image_to_string env
              (Cv2.Gray (Cv2.threshold_BINARY_INV
                           (map (map Cv2.bgr2gray) img) 150 255)) with
      | Raise e => Code2.process_file_with rules env fs path = Raise e
      | Ok text =>
          ∃ fields,
            Code2.extract_fields rules text ∅ = Ok fields
            ∧ dom fields ⊆ list_to_set rules.*1
            ∧ Code2.process_file_with rules env fs path
              = Ok (Os.basename path, outcome fields)
      end
  end.
Proof.
  intros Hrules. unfold Code2.process_file_with, Code2.preprocess.
  destruct (imread env fs path) as [img|]; [|done].
  cbn [Cv2.cvtColor_BGR2GRAY mbind result_bind].
  destruct (image_to_string env _) as [text|e]; [|done].
  cbn [mbind result_bind].
  destruct (extract_loop_total true Code2.clean_text TypeError rules text ∅
              Hrules) as [fields Hf].
  exists fields. rewrite Code2_extract_fields_loop, Hf.
  split; [done|]. split; [|done].
  apply extract_loop_dom in Hf. set_solver.
Qed.

(** X11: [process_file] of [Code2.py], with its rule table, raises
    [cv2.error] for a file that is missing or does not decode, raises what
    the recognition engine raises, and otherwise returns the base name of
    the path with the outcome of the extraction: no rule of the table can
    make it raise, and the names of the fields are names of rules. *)
Theorem Code2_process_file_cases env fs path :
  match imread env fs path with
  | None => Code2.process_file env fs path = Raise cv2_error
  | Some img =>
      match image_to_string env
              (Cv2.Gray (Cv2.threshold_BINARY_INV
                           (map (map Cv2.bgr2gray) img) 150 255)) with
      | Raise e => Code2.process_file env fs path = Raise e
      | Ok text =>
          ∃ fields,
            Code2.extract_fields Code2.patterns text ∅ = Ok fields
            ∧ dom fields ⊆ list_to_set Code2.patterns.*1
            ∧ Code2.process_file env fs path
              = Ok (Os.basename path, outcome fields)
      end
  end.
Proof.
  apply (Code2_process_file_with_cases Code2.patterns env fs path).
  apply patterns_usable.
Qed.



Lemma mapR_total {A B} (f : A → result B) (l : list A) :
  Forall (λ x, ∃ y, f x = Ok y) l → ∃ ys, mapR f l = Ok ys.
Proof.
  induction 1 as [|x l [y Hy] _ [ys IH]]; simpl; [eauto|].
  rewrite Hy. simpl. rewrite IH. simpl. eauto.
Qed.



End Processing.

(** ** [clean_text] and [strip] *)

Section Cleaning.

Implicit Types (l : list ascii) (b : bool) (text : string).

Lemma plain_space_eq c :
  Str.plain_space c = true → Char.isspace c = true → c = " "%char.
Proof.
  unfold Str.plain_space. intros H Hc. rewrite Hc in H.
  by apply Char_eqb_eq.
Qed.

Lemma sub_spaces_id b b' l :
  Str.single_spaced b l = true →
  forallb Str.plain_space l = true →
  (b' = true → b = true) →
  Code2.sub_spaces b' l = l.
Proof.
  revert b b'. induction l as [|c l IH]; intros b b' Hs Hp Hb; [done|].
  simpl in *. apply andb_true_iff in Hp as [Hc Hp].
  destruct (Char.isspace c) eqn:Ec.
  - apply andb_true_iff in Hs as [Hnb Hs].
    destruct b; [done|]. destruct b'; [by specialize (Hb eq_refl)|].
    rewrite (plain_space_eq c Hc Ec). f_equal. by apply (IH true true).
  - f_equal. by apply (IH false false).
Qed.

Lemma lstrip_id l : Str.single_spaced true l = true → Str.lstrip_chars l = l.
Proof. destruct l as [|c l]; simpl; [done|]. by destruct (Char.isspace c). Qed.

Lemma rstrip_id l : Str.ends_well l = true → Str.rstrip_chars l = l.
Proof.
  induction l as [|c l IH]; [done|]. intros H.
  destruct l as [|x l].
  - simpl in *. by apply negb_true_iff in H as ->.
  - change (Str.ends_well (c :: x :: l)) with (Str.ends_well (x :: l)) in H.
    cbn [Str.rstrip_chars]. cbn [Str.rstrip_chars] in IH.
    by rewrite (IH H).
Qed.

(** [clean_text] leaves a normal text as it is. *)
Lemma clean_text_of_normal text :
  Str.normal text = true → Code2.clean_text text = text.
Proof.
  unfold Str.normal, Code2.clean_text, Str.strip, Str.strip_chars.
  intros [[Hs He]%andb_true_iff Hp]%andb_true_iff.
  rewrite chars_of_chars.
  rewrite (sub_spaces_id true false) by done.
  rewrite lstrip_id, rstrip_id by done. apply of_chars_chars.
Qed.


(** Stripping on the left commutes with the substitution. *)
Lemma lstrip_sub_spaces b l :
  Str.lstrip_chars (Code2.sub_spaces b l)
  = Code2.sub_spaces false (Str.lstrip_chars l).
Proof.
  revert b. induction l as [|c l IH]; intros b; [done|].
  cbn [Code2.sub_spaces Str.lstrip_chars].
  destruct (Char.isspace c) eqn:Ec.
  - destruct b; [apply IH|]. cbn [Str.lstrip_chars].
    change (Char.isspace " ") with true. cbv iota. apply IH.
  - cbn [Str.lstrip_chars Code2.sub_spaces]. by rewrite Ec.
Qed.

Lemma rstrip_cons c l :
  Str.rstrip_chars (c :: l)
  = match Str.rstrip_chars l with
    | [] => if Char.isspace c then [] else [c]
    | r => c :: r
    end.
Proof. done. Qed.

Lemma rstrip_sub_spaces_nil b l :
  Str.rstrip_chars l = [] → Str.rstrip_chars (Code2.sub_spaces b l) = [].
Proof.
  revert b. induction l as [|c l IH]; intros b; [done|].
  rewrite rstrip_cons. destruct (Str.rstrip_chars l) eqn:El; [|done].
  destruct (Char.isspace c) eqn:Ec; [|done]. intros _.
  cbn [Code2.sub_spaces]. rewrite Ec.
  destruct b; [by apply IH|]. rewrite rstrip_cons, IH by done. done.
Qed.

(** Stripping on the right before the substitution changes nothing after
    it. *)
Lemma rstrip_sub_spaces b l :
  Str.rstrip_chars (Code2.sub_spaces b (Str.rstrip_chars l))
  = Str.rstrip_chars (Code2.sub_spaces b l).
Proof.
  revert b. induction l as [|c l IH]; intros b; [done|].
  rewrite rstrip_cons. destruct (Str.rstrip_chars l) as [|x r] eqn:El.
  - destruct (Char.isspace c) eqn:Ec.
    + symmetry. apply rstrip_sub_spaces_nil. by rewrite rstrip_cons, El, Ec.
    + cbn [Code2.sub_spaces]. rewrite Ec.
      by rewrite !rstrip_cons, (rstrip_sub_spaces_nil false l El).
  - rewrite <- El in IH |- *. cbn [Code2.sub_spaces].
    destruct (Char.isspace c); [destruct b|];
      rewrite ?rstrip_cons, ?IH; done.
Qed.

Lemma lstrip_rstrip_lstrip l :
  Str.lstrip_chars (Str.rstrip_chars (Str.lstrip_chars l))
  = Str.rstrip_chars (Str.lstrip_chars l).
Proof.
  induction l as [|c l IH]; [done|]. cbn [Str.lstrip_chars].
  destruct (Char.isspace c) eqn:Ec; [done|].
  rewrite rstrip_cons. destruct (Str.rstrip_chars l); rewrite ?Ec;
    cbn [Str.lstrip_chars]; by rewrite Ec.
Qed.

(** Cleaning a stripped text is cleaning the text. *)
Lemma clean_text_strip text :
  Code2.clean_text (Str.strip text) = Code2.clean_text text.
Proof.
  unfold Code2.clean_text, Str.strip, Str.strip_chars.
  rewrite !chars_of_chars. f_equal.
  rewrite !lstrip_sub_spaces, lstrip_rstrip_lstrip. apply rstrip_sub_spaces.
Qed.


End Cleaning.

(** ** What the rules capture *)

Section Captured.

Import Re ReSpec.

Implicit Types (r : regex) (s pre : list ascii) (caps : captures)
  (k : cont) (a : answer) (P p : ascii → bool).

Lemma all_chars_complete c : c ∈ all_chars.
Proof.
  apply list_elem_of_In. unfold all_chars. apply in_map_iff.
  exists (nat_of_ascii c). split; [apply ascii_nat_embedding|].
  apply in_seq. pose proof (nat_ascii_bounded c). lia.
Qed.

Lemma test_within_spec P p c :
  test_within P p = true → p c = true → P c = true.
Proof.
  unfold test_within. rewrite forallb_forall. intros H Hp.
  specialize (H c (proj1 (list_elem_of_In _ _) (all_chars_complete c))).
  by rewrite Hp in H.
Qed.

Lemma run_atom ic r p :
  atom ic r = Some p → ∀ s caps k, run ic r s caps k = one p s caps k.
Proof. destruct r; simpl; intros [= <-]; done. Qed.

Lemma one_consumes P p :
  test_within P p = true → consumes P 1 (one p).
Proof.
  intros Hp s caps k a H. destruct s as [|c s]; [done|]. simpl in H.
  destruct (p c) eqn:Ec; [|done].
  exists [c], s, caps. split_and!; try done. simpl.
  by rewrite (test_within_spec P p c Hp Ec).
Qed.

Lemma consumes_weaken P n m step :
  m ≤ n → consumes P n step → consumes P m step.
Proof.
  intros Hmn H s caps k a Hs.
  destruct (H s caps k a Hs) as (pre & s' & caps' & ? & ? & ? & ?).
  exists pre, s', caps'. split_and!; try done. lia.
Qed.

Lemma consumes_seq P n1 n2 step1 step2 :
  consumes P n1 step1 → consumes P n2 step2 →
  consumes P (n1 + n2)
    (λ s caps k, step1 s caps (λ s' caps', step2 s' caps' k)).
Proof.
  intros H1 H2 s caps k a Hs.
  apply H1 in Hs as (pre1 & s1 & caps1 & -> & Hp1 & Hn1 & Hs).
  apply H2 in Hs as (pre2 & s2 & caps2 & -> & Hp2 & Hn2 & Hs).
  exists (pre1 ++ pre2), s2, caps2.
  split_and!; [by rewrite app_assoc | | rewrite length_app; lia | done].
  by rewrite forallb_app, Hp1, Hp2.
Qed.

Lemma repeat_max_consumes P m step n :
  consumes P m step → consumes P 0 (repeat_max step n).
Proof.
  intros Hstep. induction n as [|n IH]; intros s caps k a H; simpl in H.
  - exists [], s, caps. split_and!; try done.
  - destruct (step s caps _) as [a'|] eqn:E.
    + injection H as <-.
      apply Hstep in E as (pre1 & s1 & caps1 & -> & Hp1 & _ & E).
      destruct (length s1 <? length (pre1 ++ s1)); [|done].
      apply IH in E as (pre2 & s2 & caps2 & -> & Hp2 & _ & E).
      exists (pre1 ++ pre2), s2, caps2.
      split_and!; [by rewrite app_assoc | | lia | done].
      by rewrite forallb_app, Hp1, Hp2.
    + exists [], s, caps. split_and!; try done.
Qed.

(** A pattern within [P] consumes only characters that satisfy [P], and at
    least [min_len] of them. *)
Lemma run_within P ic r :
  within P ic r = true → consumes P (min_len r) (run ic r).
Proof.
  induction r as [|x| |cat|neg items|r1 IH1 r2 IH2|r1 IH1 r2 IH2
                 |r IH|r IH|r IH|m r IH]; intros Hw.
  - intros s caps k a H. exists [], s, caps. split_and!; done.
  - by apply one_consumes.
  - by apply one_consumes.
  - by apply one_consumes.
  - by apply one_consumes.
  - simpl in Hw. apply andb_true_iff in Hw as [Hw1 Hw2].
    apply (consumes_seq P _ _ _ _ (IH1 Hw1) (IH2 Hw2)).
  - simpl in Hw. apply andb_true_iff in Hw as [Hw1 Hw2].
    intros s caps k a H. simpl in H.
    assert (consumes P (min_len (Alt r1 r2)) (run ic r1)) as Hc1
      by (apply (consumes_weaken P (min_len r1)); [simpl; lia | by apply IH1]).
    assert (consumes P (min_len (Alt r1 r2)) (run ic r2)) as Hc2
      by (apply (consumes_weaken P (min_len r2)); [simpl; lia | by apply IH2]).
    destruct (run ic r1 s caps k) as [a'|] eqn:E.
    + injection H as <-. by apply Hc1 in E.
    + by apply Hc2 in H.
  - intros s caps k a H. simpl in H.
    by apply (repeat_max_consumes P _ _ _ (IH Hw)) in H.
  - pose proof (consumes_seq P _ 0 _ _ (IH Hw)
                  (λ s caps k a H,
                     repeat_max_consumes P _ (run ic r) (length s) (IH Hw)
                       s caps k a H)) as Hc.
    rewrite Nat.add_0_r in Hc. exact Hc.
  - intros s caps k a H. simpl in H.
    assert (consumes P 0 (run ic r)) as Hc
      by (apply (consumes_weaken P (min_len r)); [lia | by apply IH]).
    destruct (run ic r s caps k) as [a'|] eqn:E.
    + injection H as <-. by apply Hc in E.
    + exists [], s, caps. split_and!; try done.
  - intros s caps k a H. simpl in H.
    apply (IH Hw) in H as (pre & s' & caps' & -> & Hp & Hn & H).
    exists pre, s', ((m, take (length (pre ++ s') - length s') (pre ++ s'))
                     :: caps'). split_and!; done.
Qed.

(** What a group captures is what its body consumed. *)
Lemma group_captures P ic n body s caps k a :
  within P ic body = true →
  run ic (Group n body) s caps k = Some a →
  ∃ pre s' caps',
    forallb P pre = true ∧ min_len body ≤ length pre
    ∧ k s' ((n, pre) :: caps') = Some a.
Proof.
  intros Hw H. simpl in H.
  apply (run_within P ic body Hw) in H
    as (pre & s' & caps' & -> & Hp & Hn & H).
  replace (length (pre ++ s') - length s') with (length pre) in H
    by (rewrite length_app; lia).
  rewrite take_app_length in H. eauto 10.
Qed.

(** A successful run goes through the last element of the sequence. *)
Lemma run_last ic r s caps k a :
  run ic r s caps k = Some a →
  ∃ s1 caps1, run ic (last_of r) s1 caps1 k = Some a.
Proof.
  revert s caps. induction r; intros s caps H; simpl; eauto.
  simpl in H. apply run_captures in H as (s1 & caps1 & H & _). eauto.
Qed.

(** The first group of a match of a pattern that captures only [P]. *)
Lemma captured_only P ic pattern text m :
  captures_only P ic pattern = true →
  Re.search pattern text ic = Ok (Some m) →
  ∃ g, Re.group m 1 = Ok (Some g) ∧ g ≠ ""
       ∧ forallb P (Str.chars g) = true.
Proof.
  unfold captures_only, Re.search.
  destruct (compile pattern) as [[r ng]|]; [|done].
  intros [Hng Hlast]%andb_true_iff [= Hs].
  pose proof (search_from_leftmost ic r ng (Str.chars text) 0
                (Str.chars text)) as H.
  rewrite Hs in H. destruct H as (j & rest & _ & _ & Hm & _ & Hg & _).
  unfold match_here in Hm. apply run_last in Hm as (s1 & caps1 & Hm).
  destruct (last_of r) as [| | | | | | | | | |n body]; try done.
  destruct n as [|[|n]]; try done.
  apply andb_true_iff in Hlast as [Hw Hmin]. apply Nat.leb_le in Hmin.
  apply (group_captures P ic 1 body _ _ _ _ Hw) in Hm
    as (pre & s' & caps' & Hp & Hn & [= _ Hcaps]).
  exists (Str.of_chars pre). unfold group.
  rewrite Hg, <- Hcaps. change (1 =? 0) with false. cbv iota.
  rewrite Hng. cbn [capture]. rewrite Nat.eqb_refl. split_and!.
  - done.
  - intros E. apply (f_equal Str.chars) in E. rewrite chars_of_chars in E.
    subst pre. simpl in Hn. lia.
  - by rewrite chars_of_chars.
Qed.

(** What [Code2.py] stores for a rule of its table that captures only
    [P]. *)
Lemma stored_within P key pattern text fields v :
  (key, pattern) ∈ Code2.patterns →
  captures_only P true pattern = true →
  Code2.extract_fields Code2.patterns text ∅ = Ok fields →
  fields !! key = Some v →
  ∃ g, v = Code2.clean_text g ∧ g ≠ "" ∧ forallb P (Str.chars g) = true.
Proof.
  intros Hin Hcap Hf Hv. rewrite Code2_extract_fields_loop in Hf.
  apply extract_loop_rules in Hf as [_ Hrules]; [|apply patterns_NoDup].
  destruct (Hrules key pattern Hin) as ([m|] & Hs & Hres).
  - destruct Hres as (g & Hg & Hfg).
    destruct (captured_only P true pattern text m Hcap Hs)
      as (g' & Hg' & Hne & Hp).
    rewrite Hg in Hg'. injection Hg' as <-.
    rewrite Hv in Hfg. injection Hfg as ->. eauto.
  - rewrite Hv, lookup_empty in Hres. done.
Qed.

Lemma no_space_single_spaced l b :
  forallb (λ c, negb (Char.isspace c)) l = true →
  Str.single_spaced b l = true.
Proof.
  revert b. induction l as [|c l IH]; intros b H; [done|]. simpl in *.
  apply andb_true_iff in H as [Hc H]. apply negb_true_iff in Hc.
  rewrite Hc. by apply IH.
Qed.

Lemma no_space_ends_well l :
  forallb (λ c, negb (Char.isspace c)) l = true → Str.ends_well l = true.
Proof.
  induction l as [|c l IH]; intros H; [done|]. simpl in H.
  apply andb_true_iff in H as [Hc H]. destruct l; [exact Hc|]. exact (IH H).
Qed.

Lemma no_space_plain l :
  forallb (λ c, negb (Char.isspace c)) l = true →
  forallb Str.plain_space l = true.
Proof.
  induction l as [|c l IH]; intros H; [done|]. simpl in *.
  apply andb_true_iff in H as [Hc H]. apply negb_true_iff in Hc.
  unfold Str.plain_space at 1. rewrite Hc. by apply IH.
Qed.

Lemma no_space_normal l :
  forallb (λ c, negb (Char.isspace c)) l = true →
  Str.normal (Str.of_chars l) = true.
Proof.
  intros H. unfold Str.normal. rewrite chars_of_chars.
  by rewrite no_space_single_spaced, no_space_ends_well, no_space_plain.
Qed.

Lemma forallb_impl {A} (P Q : A → bool) (l : list A) :
  (∀ x, P x = true → Q x = true) → forallb P l = true → forallb Q l = true.
Proof.
  intros HPQ. rewrite !forallb_forall. auto.
Qed.

Lemma digit_not_space c : Char.isdigit c = true → negb (Char.isspace c) = true.
Proof. each_char c; discriminate. Qed.

Lemma alpha_not_space c : Char.isalpha c = true → negb (Char.isspace c) = true.
Proof. each_char c; discriminate. Qed.

(** A captured text without whitespace is stored as it is. *)
Lemma stored_as_captured P g :
  (∀ c, P c = true → negb (Char.isspace c) = true) →
  forallb P (Str.chars g) = true → Code2.clean_text g = g.
Proof.
  intros HP Hg. apply clean_text_of_normal.
  rewrite <- (of_chars_chars g). apply no_space_normal.
  by apply (forallb_impl P).
Qed.

(** X16: whatever the text, the values that [Code2.py] stores for the
    rules 'PR Number', 'Cost Estimate' and 'Budget Allocated' are strings
    of decimal digits that are not empty. *)
Theorem numeric_fields_are_digits text fields key v :
  Code2.extract_fields Code2.patterns text ∅ = Ok fields →
  key ∈ ["PR Number"; "Cost Estimate"; "Budget Allocated"] →
  fields !! key = Some v →
  v ≠ "" ∧ forallb Char.isdigit (Str.chars v) = true.
Proof.
  intros Hf Hkey Hv.
  assert (∃ pattern, (key, pattern) ∈ Code2.patterns
                     ∧ captures_only Char.isdigit true pattern = true)
    as (pattern & Hin & Hcap).
  { revert Hkey. rewrite !elem_of_cons, elem_of_nil.
    intros [->|[->|[->|[]]]];
      [exists "PR Number\s*(\d+)" | exists "Cost Estimate\s*(\d+)"
      | exists "Budget Allocated\s*(\d+)"];
      (split; [|vm_compute; reflexivity]);
      apply list_elem_of_In; cbn [In Code2.patterns];
      repeat first [left; reflexivity | right]. }
  destruct (stored_within _ _ _ _ _ _ Hin Hcap Hf Hv) as (g & -> & Hne & Hg).
  rewrite (stored_as_captured _ g digit_not_space Hg).
  split; [exact Hne | exact Hg].
Qed.

Lemma numeric_fields_are_digits_witness :
  "4521" ≠ "" ∧ forallb Char.isdigit (Str.chars "4521") = true.
Proof.
  eapply (numeric_fields_are_digits Demo.page _ "PR Number" "4521").
  - vm_compute. reflexivity.
  - left.
  - vm_compute. reflexivity.
Defined.



Lemma rule_char_stored digits c :
  rule_char digits c = true → Char.isspace c = false →
  stored_char digits c = true.
Proof.
  unfold rule_char, stored_char. intros H Hc. rewrite Hc in H.
  rewrite orb_false_r in H. destruct digits; each_char c; done.
Qed.

Lemma space_stored digits : stored_char digits " " = true.
Proof. by destruct digits. Qed.

(** The characters of a cleaned text. *)
Lemma clean_text_chars P Q g :
  (∀ c, P c = true → Char.isspace c = false → Q c = true) →
  Q " "%char = true →
  forallb P (Str.chars g) = true →
  forallb Q (Str.chars (Code2.clean_text g)) = true.
Proof.
  intros HPQ Hsp Hg. apply forallb_forall. intros c Hc.
  destruct (Char.isspace c) eqn:Ec.
  - pose proof (clean_text_normal g) as Hn. unfold Str.normal in Hn.
    apply andb_true_iff in Hn as [_ Hp].
    rewrite forallb_forall in Hp.
    by rewrite (plain_space_eq c (Hp c Hc) Ec).
  - apply HPQ; [|done]. rewrite forallb_forall in Hg. apply Hg.
    assert (In c (Str.ink (Code2.clean_text g))) as Hi.
    { unfold Str.ink. apply filter_In. by rewrite Ec. }
    rewrite clean_text_ink in Hi. unfold Str.ink in Hi.
    by apply filter_In in Hi as [? _].
Qed.

(** X18: whatever the text, the values that [Code2.py] stores for the rules
    'Technical Specifications', 'Vendor Payment Terms' and 'Vendor Delivery
    Terms' are made of letters, percent signs, commas and single spaces,
    and of digits besides for the last of the three. *)
Theorem text_fields_alphabet text fields key v :
  Code2.extract_fields Code2.patterns text ∅ = Ok fields →
  key ∈ ["Technical Specifications"; "Vendor Payment Terms";
         "Vendor Delivery Terms"] →
  fields !! key = Some v →
  forallb (stored_char (String.eqb key "Vendor Delivery Terms"))
    (Str.chars v) = true.
Proof.
  intros Hf Hkey Hv.
  set (digits := String.eqb key "Vendor Delivery Terms").
  assert (∃ pattern, (key, pattern) ∈ Code2.patterns
                     ∧ captures_only (rule_char digits) true pattern = true)
    as (pattern & Hin & Hcap).
  { subst digits. revert Hkey. rewrite !elem_of_cons, elem_of_nil.
    intros [->|[->|[->|[]]]];
      [exists "Technical Specifications\s*([%A-Za-z\s,]+)"
      | exists "Vendor Payment Terms\s*([%A-Za-z\s,]+)"
      | exists "Vendor Delivery Terms\s*([%A-Za-z\s,\d]+)"];
      (split; [|vm_compute; reflexivity]);
      apply list_elem_of_In; cbn [In Code2.patterns];
      repeat first [left; reflexivity | right]. }
  destruct (stored_within _ _ _ _ _ _ Hin Hcap Hf Hv) as (g & -> & Hne & Hg).
  apply (clean_text_chars (rule_char digits)); [|apply space_stored|exact Hg].
  apply rule_char_stored.
Qed.

Lemma text_fields_alphabet_witness :
  forallb (stored_char (String.eqb "Vendor Payment Terms"
                          "Vendor Delivery Terms"))
    (Str.chars "cash on delivery") = true.
Proof.
  eapply (text_fields_alphabet Demo.page _ "Vendor Payment Terms"
            "cash on delivery").
  - vm_compute. reflexivity.
  - right. left.
  - vm_compute. reflexivity.
Defined.

End Captured.

(** ** A rule matches at its label *)

Section Labels.

Import Re ReSpec.

Implicit Types (r : regex) (s : list ascii) (caps : captures) (k : cont).

(** A match with [IGNORECASE] begins with the literal characters of the
    pattern, up to case. *)
Lemma run_literal_prefix r s caps k a :
  run true r s caps k = Some a →
  map Char.lower (take (length (literal_prefix r)) s)
  = map Char.lower (literal_prefix r).
Proof.
  revert s caps k.
  induction r as [|x| |cat|neg items|r1 _ r2 IH2|r1 IH1 r2 IH2
                 |r IH|r IH|r IH|m r IH]; intros s caps k H; try done.
  - simpl in *. destruct s as [|c s]; [done|]. simpl in H.
    destruct (Char.eqb (Char.lower x) (Char.lower c)) eqn:E; [|done].
    apply Char_eqb_eq in E. simpl. by rewrite ?take_0, E.
  - destruct r1; try done. cbn [literal_prefix length]. simpl in H.
    destruct s as [|d s]; [done|]. simpl in H.
    destruct (Char.eqb (Char.lower c) (Char.lower d)) eqn:E; [|done].
    apply Char_eqb_eq in E. apply IH2 in H. simpl. by rewrite H, E.
Qed.

Lemma take_take_prefix {A} (n m : nat) (l : list A) :
  n ≤ m → take n (take m l) = take n l.
Proof. intros. rewrite take_take. f_equal. lia. Qed.



End Labels.
